(** * Single-table access layer of the photo-sharing backend

    A shallow embedding of the DynamoDB access classes
    ([app/models/album/dynamo.py], [app/mixins/flag/dynamo.py]) and of the
    one-shot migration [migrations/post_0_to_1.py], together with the
    semantics of the store they talk to.

    Layout:
    - [Store]      the table as boto3 shows it: items, expressions, writes, scan;
    - [Py]         exceptions, the process state and a small exception monad;
    - [Boto]       the boto3 [Table] resource calls, in the monad;
    - [DynamoClient] the repository's own client wrapper;
    - [AlbumDynamo], [FlagDynamo], [Post0To1], [User6To7] the code under study;
    - [Effects], [Fixtures] closed forms and small tables the statements name;
    - the properties, one module a topic. *)

From Stdlib Require Import ZArith.
From Stdlib Require String.
From stdpp Require Import base gmap strings list option.

#[local] Set Warnings "-register-all".
#[local] Open Scope string_scope.
#[local] Open Scope list_scope.
#[local] Open Scope Z_scope.

(** ** The store *)

Module Store.

(** Attribute values. Numbers are [Z] (the wire form [{'N': '1'}] is the
    number 1, [{'S': s}] the string [s]); a map value holds scalars, which is
    all that [postedBy.userId] needs. *)
Inductive scalar :=
  | S_ (s : string)
  | N_ (n : Z).

Inductive value :=
  | VS (s : string)
  | VN (n : Z)
  | VM (m : gmap string scalar).

#[global] Instance scalar_eq_dec : EqDecision scalar.
Proof. solve_decision. Defined.

#[global] Instance value_eq_dec : EqDecision value.
Proof. solve_decision. Defined.

Definition of_scalar (s : scalar) : value :=
  match s with
  | S_ s => VS s
  | N_ n => VN n
  end.

(** An item is a dict from attribute name to value, a primary key the pair
    (partitionKey, sortKey), a table a finite map from keys to items. *)
Abbreviation item := (gmap string value).
Abbreviation key := (string * string)%type.
Abbreviation table := (gmap (string * string) (gmap string value)).

Definition key_of (it : item) : option key :=
  match it !! "partitionKey", it !! "sortKey" with
  | Some (VS p), Some (VS s) => Some (p, s)
  | _, _ => None
  end.

Definition key_item (k : key) : item :=
  <["partitionKey" := VS k.1]> (<["sortKey" := VS k.2]> ∅).

Definition is_key_attr (a : string) : bool :=
  bool_decide (a = "partitionKey") || bool_decide (a = "sortKey").

(** Every stored item carries the key it is stored under. *)
Definition table_wf (t : table) : Prop :=
  ∀ k it, t !! k = Some it → key_of it = Some k.

(** *** Expressions

    Update, condition and filter expressions are kept as syntax trees; the
    [render_*] functions give back the text the Python code writes. *)

Inductive operand :=
  | Attr (path : list string)   (* [a] or [a.b], [#n] placeholders allowed *)
  | Val (placeholder : string). (* [:v] *)

Inductive cmp := CEq | CGt | CLt.

Inductive cond :=
  | AttributeExists (a : string)
  | AttributeNotExists (a : string)
  | Cmp (l : operand) (c : cmp) (r : operand)
  | BeginsWith (l r : operand)
  | And (c1 c2 : cond)
  | Not (c : cond).

Inductive keyword := SET | REMOVE | ADD.

Inductive clause :=
  | SetTo (lhs : string) (rhs : operand)   (* [lhs = rhs] under SET *)
  | Rm (a : string)                        (* [a] under REMOVE *)
  | AddTo (a : string) (placeholder : string). (* [a :v] under ADD *)

Abbreviation update_expression := (list (keyword * list clause)).

#[global] Instance keyword_eq_dec : EqDecision keyword.
Proof. solve_decision. Defined.

Definition clause_keyword (c : clause) : keyword :=
  match c with
  | SetTo _ _ => SET
  | Rm _ => REMOVE
  | AddTo _ _ => ADD
  end.

Definition render_keyword (k : keyword) : string :=
  match k with
  | SET => "SET"
  | REMOVE => "REMOVE"
  | ADD => "ADD"
  end.

Definition render_operand (o : operand) : string :=
  match o with
  | Attr p => String.concat "." p
  | Val v => v
  end.

Definition render_cmp (c : cmp) : string :=
  match c with
  | CEq => "="
  | CGt => ">"
  | CLt => "<"
  end.

Fixpoint render_cond (c : cond) : string :=
  match c with
  | AttributeExists a => "attribute_exists(" +:+ a +:+ ")"
  | AttributeNotExists a => "attribute_not_exists(" +:+ a +:+ ")"
  | Cmp l c r => render_operand l +:+ " " +:+ render_cmp c +:+ " " +:+ render_operand r
  | BeginsWith l r => "begins_with(" +:+ render_operand l +:+ ", " +:+ render_operand r +:+ ")"
  | And c1 c2 => render_cond c1 +:+ " and " +:+ render_cond c2
  | Not c => "NOT " +:+ render_cond c
  end.

Definition render_clause (c : clause) : string :=
  match c with
  | SetTo a o => a +:+ " = " +:+ render_operand o
  | Rm a => a
  | AddTo a v => a +:+ " " +:+ v
  end.

(** [' '.join(f'{k} {", ".join(v)}' for k, v in exp_actions.items())] *)
Definition render_update (ue : update_expression) : string :=
  String.concat " "
    ((λ kv, render_keyword kv.1 +:+ " " +:+ String.concat ", " (render_clause <$> kv.2)) <$> ue).

(** The placeholders of a request. The Python code leaves either dict out of
    the request when it has nothing to put in it. *)
Record expr_env := {
  names : gmap string string;
  values : gmap string value;
}.

Definition mk_env (ns : option (gmap string string)) (vs : option (gmap string value)) : expr_env :=
  {| names := default ∅ ns; values := default ∅ vs |}.

Definition is_name_placeholder (a : string) : bool := String.prefix "#" a.

(** [None]: the placeholder is not declared, a ValidationException. *)
Definition resolve_name (env : expr_env) (a : string) : option string :=
  if is_name_placeholder a then names env !! a else Some a.

Definition get_path (it : item) (p : list string) : option value :=
  match p with
  | [a] => it !! a
  | [a; b] =>
      match it !! a with
      | Some (VM m) => of_scalar <$> (m !! b)
      | _ => None
      end
  | _ => None
  end.

(** Outer [None]: ValidationException. Inner [None]: the attribute is absent.
    An item that does not exist has no attribute. *)
Definition eval_operand (env : expr_env) (cur : option item) (o : operand)
  : option (option value) :=
  match o with
  | Attr p =>
      p' ← mapM (resolve_name env) p;
      Some (cur ≫= λ it, get_path it p')
  | Val v => Some <$> (values env !! v)
  end.

(** Comparisons hold between two values of one scalar type only. *)
Definition compare_values (c : cmp) (v1 v2 : value) : bool :=
  match c, v1, v2 with
  | CEq, _, _ => bool_decide (v1 = v2)
  | CGt, VN a, VN b => bool_decide (b < a)
  | CLt, VN a, VN b => bool_decide (a < b)
  | CGt, VS a, VS b => String.ltb b a
  | CLt, VS a, VS b => String.ltb a b
  | _, _, _ => false
  end.

Definition begins_with (v p : value) : bool :=
  match v, p with
  | VS s, VS pre => String.prefix pre s
  | _, _ => false
  end.

Fixpoint eval_cond (env : expr_env) (cur : option item) (c : cond) : option bool :=
  match c with
  | AttributeExists a =>
      a' ← resolve_name env a;
      Some (bool_decide (is_Some (cur ≫= (.!! a'))))
  | AttributeNotExists a =>
      a' ← resolve_name env a;
      Some (bool_decide (cur ≫= (.!! a') = None))
  | Cmp l c r =>
      vl ← eval_operand env cur l;
      vr ← eval_operand env cur r;
      Some (match vl, vr with
            | Some x, Some y => compare_values c x y
            | _, _ => false
            end)
  | BeginsWith l r =>
      vl ← eval_operand env cur l;
      vr ← eval_operand env cur r;
      Some (match vl, vr with
            | Some x, Some y => begins_with x y
            | _, _ => false
            end)
  | And c1 c2 =>
      b1 ← eval_cond env cur c1;
      b2 ← eval_cond env cur c2;
      Some (b1 && b2)
  | Not c =>
      negb <$> eval_cond env cur c
  end.

Definition eval_cond_opt (env : expr_env) (cur : option item) (c : option cond) : option bool :=
  match c with
  | None => Some true
  | Some c => eval_cond env cur c
  end.

(** One clause of an update. Right-hand sides read the item as it was before
    the update; key attributes cannot be written. [None]: ValidationException. *)
Definition apply_clause (env : expr_env) (old : item) (acc : item) (c : clause) : option item :=
  match c with
  | SetTo a o =>
      a' ← resolve_name env a;
      if is_key_attr a' then None else
      v ← eval_operand env (Some old) o;
      (λ v, <[a' := v]> acc) <$> v
  | Rm a =>
      a' ← resolve_name env a;
      if is_key_attr a' then None else Some (delete a' acc)
  | AddTo a ph =>
      a' ← resolve_name env a;
      if is_key_attr a' then None else
      match values env !! ph, old !! a' with
      | Some (VN d), None => Some (<[a' := VN d]> acc)
      | Some (VN d), Some (VN n) => Some (<[a' := VN (n + d)]> acc)
      | _, _ => None
      end
  end.

Fixpoint apply_clauses (env : expr_env) (old acc : item) (cs : list clause) : option item :=
  match cs with
  | [] => Some acc
  | c :: cs' => acc' ← apply_clause env old acc c; apply_clauses env old acc' cs'
  end.

Definition update_clauses (ue : update_expression) : option (list clause) :=
  if forallb (λ kv : keyword * list clause,
                forallb (λ c, bool_decide (clause_keyword c = kv.1)) kv.2) ue
  then Some (concat (snd <$> ue)) else None.

Definition apply_update (env : expr_env) (it : item) (ue : update_expression) : option item :=
  cs ← update_clauses ue; apply_clauses env it it cs.

(** *** Requests *)

Inductive store_exn :=
  | ConditionalCheckFailedException
  | ValidationException
  | TransactionCanceledException.

Record update_kwargs := {
  Key : key;
  UpdateExpression : update_expression;
  ConditionExpression : option cond;
  ExpressionAttributeNames : option (gmap string string);
  ExpressionAttributeValues : option (gmap string value);
}.

Definition env_of (kw : update_kwargs) : expr_env :=
  mk_env (ExpressionAttributeNames kw) (ExpressionAttributeValues kw).

Definition get_item (t : table) (k : key) : option item := t !! k.

(** PutItem with an optional condition on the item currently under the key. *)
Definition put_item (t : table) (it : item) (c : option cond) : store_exn + table :=
  match key_of it with
  | None => inl ValidationException
  | Some k =>
      match eval_cond_opt (mk_env None None) (t !! k) c with
      | None => inl ValidationException
      | Some false => inl ConditionalCheckFailedException
      | Some true => inr (<[k := it]> t)
      end
  end.

(** UpdateItem, ReturnValues=ALL_NEW. The condition is checked on the current
    item; an update of a key that is not there starts from the bare key. *)
Definition update_item (t : table) (kw : update_kwargs) : store_exn + (table * item) :=
  let cur := t !! Key kw in
  match eval_cond_opt (env_of kw) cur (ConditionExpression kw) with
  | None => inl ValidationException
  | Some false => inl ConditionalCheckFailedException
  | Some true =>
      match apply_update (env_of kw) (default (key_item (Key kw)) cur) (UpdateExpression kw) with
      | None => inl ValidationException
      | Some it' => inr (<[Key kw := it']> t, it')
      end
  end.

(** DeleteItem, ReturnValues=ALL_OLD. *)
Definition delete_item (t : table) (k : key) : table * option item :=
  (delete k t, t !! k).

(** Scan. The store walks the table in its own fixed order, evaluates at most
    [limit] items per call, starting after [ExclusiveStartKey], and returns
    those that pass the filter. It reports [LastEvaluatedKey] whenever the
    call stopped at the limit. *)
Record scan_kwargs := {
  FilterExpression : cond;
  ScanValues : gmap string value;
  ExclusiveStartKey : option key;
}.

Record page := {
  Items : list item;
  LastEvaluatedKey : option key;
}.

Fixpoint drop_after (k : key) (l : list (key * item)) : list (key * item) :=
  match l with
  | [] => []
  | kv :: l' => if decide (kv.1 = k) then l' else drop_after k l'
  end.

Definition passes (env : expr_env) (fe : cond) (it : item) : Prop :=
  eval_cond env (Some it) fe = Some true.

#[global] Instance passes_dec env fe it : Decision (passes env fe it).
Proof. unfold passes. apply _. Defined.

Definition scan_from (t : table) (start : option key) : list (key * item) :=
  match start with
  | None => map_to_list t
  | Some k => drop_after k (map_to_list t)
  end.

Definition scan (limit : nat) (t : table) (kw : scan_kwargs) : store_exn + page :=
  let env := mk_env None (Some (ScanValues kw)) in
  match eval_cond env None (FilterExpression kw) with
  | None => inl ValidationException
  | Some _ =>
      let rest := scan_from t (ExclusiveStartKey kw) in
      let evaluated := take limit rest in
      inr {| Items := filter (passes env (FilterExpression kw)) (evaluated.*2);
             LastEvaluatedKey :=
               if decide (limit ≤ length rest)%nat then list.last (evaluated.*1) else None |}
  end.

(** TransactWriteItems over Update steps: all steps or none. *)
Inductive transact_item :=
  | Update (kw : update_kwargs).

Definition transact_key (s : transact_item) : key :=
  match s with Update kw => Key kw end.

Fixpoint transact_steps (t : table) (steps : list transact_item) : store_exn + table :=
  match steps with
  | [] => inr t
  | Update kw :: steps' =>
      match update_item t kw with
      | inl ValidationException => inl ValidationException
      | inl _ => inl TransactionCanceledException
      | inr (t', _) => transact_steps t' steps'
      end
  end.

Definition transact_write_items (t : table) (steps : list transact_item) : store_exn + table :=
  if bool_decide (NoDup (transact_key <$> steps))
  then transact_steps t steps
  else inl ValidationException.

(** Query. The key condition is evaluated on the items of the table (or of
    the index named); what the store hands back per item is the projection. *)
Record query_kwargs := {
  KeyConditionExpression : cond;
  IndexName : option string;
  QueryNames : option (gmap string string);
  QueryValues : option (gmap string value);
  ProjectionExpression : option (list string);
}.

Definition key_condition_holds (q : query_kwargs) (it : item) : Prop :=
  eval_cond (mk_env (QueryNames q) (QueryValues q)) (Some it) (KeyConditionExpression q)
  = Some true.

#[global] Instance key_condition_holds_dec q it : Decision (key_condition_holds q it).
Proof. unfold key_condition_holds. apply _. Defined.

Definition project (q : query_kwargs) (it : item) : item :=
  match ProjectionExpression q with
  | None => it
  | Some attrs => filter (λ kv, kv.1 ∈ attrs) it
  end.

End Store.

(** ** Python: exceptions, process state, exception monad *)

Module Py.
Import Store.

Inductive exn :=
  | ClientError (e : store_exn)          (* raw botocore error *)
  | AlbumAlreadyExists (album_id : string)
  | AlbumDoesNotExist (album_id : string)
  | AlreadyFlagged (item_type item_id user_id : string)
  | NotFlagged (item_type item_id user_id : string)
  | AssertionError (msg : string)
  | KeyError (k : string)
  | Exception (msg : string).

Inductive write_op := PutItem | UpdateItem | DeleteItem | TransactWriteItems.

(** What a run leaves behind besides the table: write requests sent to the
    store, [logger.warning] records and printed lines, oldest first. *)
Inductive event :=
  | Request (op : write_op) (k : list key)
  | Warning (msg : string)
  | Printed (msg : string).

(** A pendulum datetime, known by its ISO-8601 rendering. *)
Record DateTime := { to_iso8601_string : string }.

Record world := {
  tbl : table;
  page_limit : nat;     (* items the store evaluates per scan call *)
  clock : DateTime;     (* what [pendulum.now('utc')] reads *)
  trace : list event;
}.

Definition set_tbl (t : table) (w : world) : world :=
  {| tbl := t; page_limit := page_limit w; clock := clock w; trace := trace w |}.

Definition emit (e : event) (w : world) : world :=
  {| tbl := tbl w; page_limit := page_limit w; clock := clock w; trace := trace w ++ [e] |}.

Definition M (A : Type) : Type := world → (exn + A) * world.

Definition ret {A} (a : A) : M A := λ w, (inr a, w).

Definition raise {A} (e : exn) : M A := λ w, (inl e, w).

Definition bind {A B} (m : M A) (f : A → M B) : M B :=
  λ w, match m w with
       | (inl e, w') => (inl e, w')
       | (inr a, w') => f a w'
       end.

(** [try: m except <those e with h e = Some k>: k] *)
Definition try_except {A} (m : M A) (h : exn → option (M A)) : M A :=
  λ w, match m w with
       | (inl e, w') =>
           match h e with
           | Some k => k w'
           | None => (inl e, w')
           end
       | r => r
       end.

Definition pendulum_now : M DateTime := λ w, (inr (clock w), w).

Definition logger_warning (msg : string) : M unit := λ w, (inr (), emit (Warning msg) w).

Definition print (msg : string) : M unit := λ w, (inr (), emit (Printed msg) w).

(** [assert c, msg] *)
Definition assert (c : bool) (msg : string) : M unit :=
  if c then ret () else raise (AssertionError msg).

(** Truth value of a dict and of an optional dict. *)
Definition truthy (it : item) : bool := negb (Nat.eqb (size it) 0).

Definition truthy_opt (o : option item) : bool :=
  match o with
  | Some it => truthy it
  | None => false
  end.

(** [s[n:]] *)
Fixpoint slice_from (n : nat) (s : string) : string :=
  match n, s with
  | O, _ => s
  | S n', String _ s' => slice_from n' s'
  | S _, EmptyString => EmptyString
  end.

(** Truth value of an optional string: None and [''] are falsy. *)
Definition truthy_str (o : option string) : bool :=
  match o with
  | Some s => negb (bool_decide (s = ""))
  | None => false
  end.

Module Import Notations.
Notation "'let*' x ':=' m 'in' k" := (bind m (λ x, k))
  (at level 10, x name, m at level 100, k at level 200).
Notation "m ';;' k" := (bind m (λ _, k))
  (at level 100, k at level 200, right associativity).
End Notations.

End Py.

(** ** boto3 [Table] calls *)

Module Boto.
Import Store Py Py.Notations.

Definition store_call {A} (op : write_op) (ks : list key)
    (f : table → store_exn + (table * A)) : M A :=
  λ w, let w' := emit (Request op ks) w in
       match f (tbl w) with
       | inl e => (inl (ClientError e), w')
       | inr (t', a) => (inr a, set_tbl t' w')
       end.

Definition get_item (k : key) : M (option item) :=
  λ w, (inr (Store.get_item (tbl w) k), w).

Definition put_item (it : item) (c : option cond) : M unit :=
  store_call PutItem (option_list (key_of it))
    (λ t, sum_map id (λ t', (t', ())) (Store.put_item t it c)).

Definition update_item (kw : update_kwargs) : M item :=
  store_call UpdateItem [Key kw] (λ t, Store.update_item t kw).

Definition delete_item (k : key) : M (option item) :=
  store_call DeleteItem [k] (λ t, inr (Store.delete_item t k)).

Definition transact_write_items (steps : list transact_item) : M unit :=
  store_call TransactWriteItems (transact_key <$> steps)
    (λ t, sum_map id (λ t', (t', ())) (Store.transact_write_items t steps)).

Definition scan (kw : scan_kwargs) : M page :=
  λ w, match Store.scan (page_limit w) (tbl w) kw with
       | inl e => (inl (ClientError e), w)
       | inr p => (inr p, w)
       end.

End Boto.

(** ** The repository's client wrapper *)

Module DynamoClient.
Import Store Py Py.Notations.

(** Modelled from the spec: [app/clients/dynamo.py], the wrapper behind
    [self.client], is not among the sources; this is its [add_item]. The
    contract of [create]: insert a new record, fail if the primary key is
    already present, the condition being that the partition key must not
    exist. The failure is the store's ConditionalCheckFailedException, which
    the callers catch. The item added is handed back. *)
Definition add_item (it : item) : M item :=
  Boto.put_item it (Some (AttributeNotExists "partitionKey")) ;;
  ret it.

(** Modelled from the spec: [get_item] of the absent client wrapper, the
    store's [getItem(key)]; a read, whatever its consistency. *)
Definition get_item (k : key) (ConsistentRead : bool) : M (option item) :=
  Boto.get_item k.

(** Modelled from the spec: [update_item] of the absent client wrapper. The
    contract of [update]: a partial update with no existence precondition of
    its own. With a [failure_warning] it is [updateConditional]: a failed
    condition is not raised but logged as that warning and the failure is
    returned. The result is the new item, or the failure. *)
Definition update_item (kw : update_kwargs) (failure_warning : option string)
  : M (store_exn + item) :=
  try_except
    (let* new_item := Boto.update_item kw in ret (inr new_item))
    (λ e, match e, failure_warning with
          | ClientError ConditionalCheckFailedException, Some msg =>
              Some (logger_warning msg ;; ret (inl ConditionalCheckFailedException))
          | _, _ => None
          end).

(** Modelled from the spec: [delete_item] of the absent client wrapper, the
    store's [deleteItemIfPresent(key)]; it hands back the item it removed, if
    there was one. *)
Definition delete_item (k : key) : M (option item) :=
  Boto.delete_item k.

End DynamoClient.

(** ** [app/models/album/dynamo.py] *)

Module AlbumDynamo.
Import Store Py Py.Notations.

Definition pk (album_id : string) : key := ("album/" +:+ album_id, "-").

(** The same key, in the typed wire form of transactions. *)
Definition typed_pk (album_id : string) : key := ("album/" +:+ album_id, "-").

Definition get_album (album_id : string) (strongly_consistent : bool) : M (option item) :=
  DynamoClient.get_item (pk album_id) strongly_consistent.

(** [x or pendulum.now('utc')]: a datetime is never falsy. *)
Definition or_now (x : option DateTime) : M DateTime :=
  match x with
  | Some d => ret d
  | None => pendulum_now
  end.

Definition add_album (album_id user_id name : string) (description : option string)
    (created_at : option DateTime) : M item :=
  let* created_at := or_now created_at in
  let created_at_str := to_iso8601_string created_at in
  let Item : item :=
    <["name" := VS name]> (
    <["createdAt" := VS created_at_str]> (
    <["ownedByUserId" := VS user_id]> (
    <["albumId" := VS album_id]> (
    <["gsiA1SortKey" := VS created_at_str]> (
    <["gsiA1PartitionKey" := VS ("album/" +:+ user_id)]> (
    <["schemaVersion" := VN 0]> (
    key_item (pk album_id)))))))) in
  let Item :=
    match description with
    | Some d => <["description" := VS d]> Item
    | None => Item
    end in
  try_except (DynamoClient.add_item Item)
    (λ e, match e with
          | ClientError ConditionalCheckFailedException => Some (raise (AlbumAlreadyExists album_id))
          | _ => None
          end).

(** [exp_actions[k].append(c)] on a [defaultdict(list)]: a new keyword goes
    last, a known one keeps its place. *)
Fixpoint exp_actions_append (k : keyword) (c : clause) (acts : update_expression)
  : update_expression :=
  match acts with
  | [] => [(k, [c])]
  | (k', cs) :: acts' =>
      if decide (k' = k) then (k', (cs ++ [c])%list) :: acts'
      else (k', cs) :: exp_actions_append k c acts'
  end.

(** [if d: kwargs[...] = d] *)
Definition if_nonempty `{Countable K} {V} `{EqDecision V} (d : gmap K V) : option (gmap K V) :=
  if decide (d = ∅) then None else Some d.

Definition set_kwargs (album_id : string) (name description : option string) : update_kwargs :=
  let exp_actions : update_expression := [] in
  let exp_values : gmap string value := ∅ in
  let exp_names : gmap string string := ∅ in
  let '(exp_actions, exp_names, exp_values) :=
    match name with
    | Some n =>
        (exp_actions_append SET (SetTo "#name" (Val ":name")) exp_actions,
         <["#name" := "name"]> exp_names,
         <[":name" := VS n]> exp_values)
    | None => (exp_actions, exp_names, exp_values)
    end in
  let '(exp_actions, exp_values) :=
    match description with
    | Some d =>
        (* empty string deletes *)
        if decide (d = "") then
          (exp_actions_append REMOVE (Rm "description") exp_actions, exp_values)
        else
          (exp_actions_append SET (SetTo "description" (Val ":description")) exp_actions,
           <[":description" := VS d]> exp_values)
    | None => (exp_actions, exp_values)
    end in
  {| Key := pk album_id;
     UpdateExpression := exp_actions;
     ConditionExpression := None;
     ExpressionAttributeNames := if_nonempty exp_names;
     ExpressionAttributeValues := if_nonempty exp_values |}.

Definition set (album_id : string) (name description : option string) : M (store_exn + item) :=
  assert (bool_decide (name ≠ None) || bool_decide (description ≠ None))
    "Action-less post edit requested" ;;
  assert (bool_decide (name ≠ Some "")) "All albums must have names" ;;
  DynamoClient.update_item (set_kwargs album_id name description) None.

Definition set_delete_at_kwargs (album_id : string) (delete_at : DateTime) : update_kwargs :=
  {| Key := pk album_id;
     UpdateExpression :=
       [(SET, [SetTo "gsiK1PartitionKey" (Val ":pk"); SetTo "gsiK1SortKey" (Val ":sk")])];
     ExpressionAttributeNames := None;
     ExpressionAttributeValues :=
       Some (<[":pk" := VS "album"]> (
             <[":sk" := VS (to_iso8601_string delete_at)]> (
             <[":zero" := VN 0]> ∅)));
     ConditionExpression := Some (Not (Cmp (Attr ["postCount"]) CGt (Val ":zero"))) |}.

Definition set_delete_at_warning (album_id : string) : string :=
  "Failed to set deleteAt GSI for album `" +:+ album_id +:+ "`".

Definition set_delete_at_fail_soft (album_id : string) (delete_at : DateTime)
  : M (store_exn + item) :=
  DynamoClient.update_item (set_delete_at_kwargs album_id delete_at)
    (Some (set_delete_at_warning album_id)).

Definition clear_delete_at_kwargs (album_id : string) : update_kwargs :=
  {| Key := pk album_id;
     UpdateExpression := [(REMOVE, [Rm "gsiK1PartitionKey"; Rm "gsiK1SortKey"])];
     ExpressionAttributeNames := None;
     ExpressionAttributeValues := None;
     ConditionExpression := None |}.

Definition clear_delete_at_warning (album_id : string) : string :=
  "Failed to clear deleteAt GSI for album `" +:+ album_id +:+ "`".

Definition clear_delete_at_fail_soft (album_id : string) : M (store_exn + item) :=
  DynamoClient.update_item (clear_delete_at_kwargs album_id)
    (Some (clear_delete_at_warning album_id)).

Definition delete_album (album_id : string) : M item :=
  let* item_deleted := DynamoClient.delete_item (pk album_id) in
  match item_deleted with
  | Some it => if truthy it then ret it else raise (AlbumDoesNotExist album_id)
  | None => raise (AlbumDoesNotExist album_id)
  end.

(** Transaction to change album properties to reflect adding a post. *)
Definition transact_add_post (album_id : string) (old_rank_count : option Z)
    (now : option DateTime) : M transact_item :=
  let* now := or_now now in
  let values0 : gmap string value :=
    <[":one" := VN 1]> (<[":now" := VS (to_iso8601_string now)]> ∅) in
  let cond0 := AttributeExists "partitionKey" in
  let '(values1, cond1) :=
    match old_rank_count with
    | Some rc => (<[":rc" := VN rc]> values0, And cond0 (Cmp (Attr ["rankCount"]) CEq (Val ":rc")))
    | None => (values0, And cond0 (AttributeNotExists "rankCount"))
    end in
  ret (Update
    {| Key := typed_pk album_id;
       UpdateExpression :=
         [(ADD, [AddTo "postCount" ":one"; AddTo "rankCount" ":one"]);
          (SET, [SetTo "postsLastUpdatedAt" (Val ":now")])];
       ExpressionAttributeNames := None;
       ExpressionAttributeValues := Some values1;
       ConditionExpression := Some cond1 |}).

(** Transaction to change album properties to reflect removing a post. *)
Definition transact_remove_post (album_id : string) (now : option DateTime) : M transact_item :=
  let* now := or_now now in
  ret (Update
    {| Key := typed_pk album_id;
       UpdateExpression :=
         [(ADD, [AddTo "postCount" ":negative_one"]);
          (SET, [SetTo "postsLastUpdatedAt" (Val ":now")])];
       ExpressionAttributeNames := None;
       ExpressionAttributeValues :=
         Some (<[":negative_one" := VN (-1)]> (
               <[":now" := VS (to_iso8601_string now)]> (
               <[":zero" := VN 0]> ∅)));
       ConditionExpression :=
         Some (And (AttributeExists "partitionKey")
                   (Cmp (Attr ["postCount"]) CGt (Val ":zero"))) |}).

Definition transact_increment_rank_count (album_id : string) (old_rank_count : Z)
    (now : option DateTime) : M transact_item :=
  let* now := or_now now in
  ret (Update
    {| Key := typed_pk album_id;
       UpdateExpression :=
         [(ADD, [AddTo "rankCount" ":one"]);
          (SET, [SetTo "postsLastUpdatedAt" (Val ":now")])];
       ExpressionAttributeNames := None;
       ExpressionAttributeValues :=
         Some (<[":one" := VN 1]> (
               <[":now" := VS (to_iso8601_string now)]> (
               <[":rc" := VN old_rank_count]> ∅)));
       ConditionExpression :=
         Some (And (AttributeExists "partitionKey")
                   (Cmp (Attr ["rankCount"]) CEq (Val ":rc"))) |}).

Definition set_album_art_hash_kwargs (album_id : string) (art_hash : option string)
  : update_kwargs :=
  if truthy_str art_hash then
    {| Key := pk album_id;
       UpdateExpression := [(SET, [SetTo "artHash" (Val ":ah")])];
       ConditionExpression := None;
       ExpressionAttributeNames := None;
       ExpressionAttributeValues := Some (<[":ah" := VS (default "" art_hash)]> ∅) |}
  else
    {| Key := pk album_id;
       UpdateExpression := [(REMOVE, [Rm "artHash"])];
       ConditionExpression := None;
       ExpressionAttributeNames := None;
       ExpressionAttributeValues := None |}.

Definition set_album_art_hash (album_id : string) (art_hash : option string)
  : M (store_exn + item) :=
  DynamoClient.update_item (set_album_art_hash_kwargs album_id art_hash) None.

(** The query of [generate_by_user]. [Key('gsiA1PartitionKey').eq(v)] is a
    boto3 condition object, which boto3 sends as [#n0 = :v0]. *)
Definition generate_by_user_kwargs (user_id : string) : query_kwargs :=
  {| KeyConditionExpression := Cmp (Attr ["#n0"]) CEq (Val ":v0");
     IndexName := Some "GSI-A1";
     QueryNames := Some (<["#n0" := "gsiA1PartitionKey"]> ∅);
     QueryValues := Some (<[":v0" := VS ("album/" +:+ user_id)]> ∅);
     ProjectionExpression := None |}.

(** The query of [generate_keys_to_delete]. *)
Definition generate_keys_to_delete_kwargs (cutoff_at : DateTime) : query_kwargs :=
  {| KeyConditionExpression :=
       And (Cmp (Attr ["gsiK1PartitionKey"]) CEq (Val ":pk"))
           (Cmp (Attr ["gsiK1SortKey"]) CLt (Val ":sk_max"));
     IndexName := Some "GSI-K1";
     QueryNames := None;
     QueryValues :=
       Some (<[":pk" := VS "album"]> (<[":sk_max" := VS (to_iso8601_string cutoff_at)]> ∅));
     ProjectionExpression := Some ["partitionKey"; "sortKey"] |}.

End AlbumDynamo.

(** ** [app/mixins/flag/dynamo.py] *)

Module FlagDynamo.
Import Store Py Py.Notations.

(** [self.item_type] is the first argument throughout. *)
Definition pk (item_type item_id user_id : string) : key :=
  (item_type +:+ "/" +:+ item_id, "flag/" +:+ user_id).

Definition get (item_type item_id user_id : string) : M (option item) :=
  DynamoClient.get_item (pk item_type item_id user_id) false.

Definition add (item_type item_id user_id : string) (now : option DateTime) : M item :=
  let* now := AlbumDynamo.or_now now in
  let Item : item :=
    <["createdAt" := VS (to_iso8601_string now)]> (
    <["gsiK1SortKey" := VS item_type]> (
    <["gsiK1PartitionKey" := VS ("flag/" +:+ user_id)]> (
    <["schemaVersion" := VN 0]> (
    key_item (pk item_type item_id user_id))))) in
  try_except (DynamoClient.add_item Item)
    (λ e, match e with
          | ClientError ConditionalCheckFailedException =>
              Some (raise (AlreadyFlagged item_type item_id user_id))
          | _ => None
          end).

Definition delete (item_type item_id user_id : string) : M unit :=
  let* deleted := DynamoClient.delete_item (pk item_type item_id user_id) in
  if negb (truthy_opt deleted) then raise (NotFlagged item_type item_id user_id)
  else ret ().

(** The query of [generate_by_item]. *)
Definition generate_by_item_kwargs (item_type item_id : string) (pks_only : bool)
  : query_kwargs :=
  {| KeyConditionExpression :=
       And (Cmp (Attr ["partitionKey"]) CEq (Val ":pk"))
           (BeginsWith (Attr ["sortKey"]) (Val ":sk_prefix"));
     IndexName := None;
     QueryNames := None;
     QueryValues :=
       Some (<[":pk" := VS (item_type +:+ "/" +:+ item_id)]> (<[":sk_prefix" := VS "flag/"]> ∅));
     ProjectionExpression := if pks_only then Some ["partitionKey"; "sortKey"] else None |}.

(** The query of [generate_item_ids_by_user]. *)
Definition generate_item_ids_by_user_kwargs (item_type user_id : string) : query_kwargs :=
  {| KeyConditionExpression :=
       And (Cmp (Attr ["gsiK1PartitionKey"]) CEq (Val ":pk"))
           (Cmp (Attr ["gsiK1SortKey"]) CEq (Val ":sk"));
     IndexName := Some "GSI-K1";
     QueryNames := None;
     QueryValues :=
       Some (<[":pk" := VS ("flag/" +:+ user_id)]> (<[":sk" := VS item_type]> ∅));
     ProjectionExpression := Some ["partitionKey"] |}.

(** What [generate_item_ids_by_user] makes of each item of the query:
    [i['partitionKey'][prefix_len:]] with [prefix_len = len(item_type) + 1].
    [None]: no such attribute, or not a string. *)
Definition item_id_of (item_type : string) (i : item) : option string :=
  let prefix_len := (String.length item_type + 1)%nat in
  match i !! "partitionKey" with
  | Some (VS p) => Some (slice_from prefix_len p)
  | _ => None
  end.

End FlagDynamo.

(** ** [app/models/user/manager.py]: post-processing of a changed record

    The search index and the endpoint service are known by the calls made to
    them, in order. The items are in the typed wire form of the change
    stream, [{'S': s}] being [VS s]. *)

Module UserManager.
Import Store Py.

Inductive elasticsearch_call :=
  | update_user (old_item new_item : item)
  | add_user (new_item : item)
  | delete_user (old_item : item).

Inductive pinpoint_call :=
  | update_user_endpoint (user_id channel value : string)
  | delete_user_endpoint (user_id channel : string)
  | enable_user_endpoints (user_id : string)
  | disable_user_endpoints (user_id : string)
  | delete_user_endpoints (user_id : string).

(** [item.get(name, {}).get('S')] *)
Definition get_S (it : item) (name : string) : option string :=
  match it !! name with
  | Some (VS s) => Some s
  | _ => None
  end.

Definition postprocess_elasticsearch (old_item new_item : item) : list elasticsearch_call :=
  (* if we're manually rebuilding the index, treat everything as new *)
  let new_reindexed_at := get_S new_item "lastManuallyReindexedAt" in
  let old_reindexed_at := get_S old_item "lastManuallyReindexedAt" in
  let old_item : item :=
    if truthy_str new_reindexed_at && bool_decide (new_reindexed_at ≠ old_reindexed_at)
    then ∅ else old_item in
  (if truthy new_item && truthy old_item then [update_user old_item new_item] else [])
  ++ (if truthy new_item && negb (truthy old_item) then [add_user new_item] else [])
  ++ (if negb (truthy new_item) && truthy old_item then [delete_user old_item] else []).

(** One round of the loop over [('email', 'EMAIL'), ('phoneNumber', 'SMS')]. *)
Definition endpoint_change (user_id : string) (old_item new_item : item)
    (dynamo_name pinpoint_name : string) : list pinpoint_call :=
  let value := get_S new_item dynamo_name in
  if bool_decide (get_S old_item dynamo_name = value) then []
  else if truthy_str value then [update_user_endpoint user_id pinpoint_name (default "" value)]
  else [delete_user_endpoint user_id pinpoint_name].

Section status.
(** [enums.UserStatus], whose module is not among the sources. *)
Variables (ACTIVE DISABLED DELETING : string).

Definition postprocess_pinpoint (user_id : string) (old_item new_item : item)
  : list pinpoint_call :=
  (* check if this was a user deletion *)
  if truthy old_item && negb (truthy new_item) then [delete_user_endpoints user_id]
  else
    (* check for a change of email, phone *)
    endpoint_change user_id old_item new_item "email" "EMAIL"
    ++ endpoint_change user_id old_item new_item "phoneNumber" "SMS"
    (* check if this was a change in user status *)
    ++ (let status := default ACTIVE (get_S new_item "userStatus") in
        if truthy old_item
           && bool_decide (default ACTIVE (get_S old_item "userStatus") ≠ status)
        then
          (if bool_decide (status = ACTIVE) then [enable_user_endpoints user_id] else [])
          ++ (if bool_decide (status = DISABLED) then [disable_user_endpoints user_id] else [])
          ++ (if bool_decide (status = DELETING) then [delete_user_endpoints user_id] else [])
        else []).

Definition postprocess_record (pk sk : string) (old_item new_item : item)
  : list elasticsearch_call * list pinpoint_call :=
  let user_id := slice_from (String.length "user/") pk in
  (postprocess_elasticsearch old_item new_item,
   postprocess_pinpoint user_id old_item new_item).

End status.

End UserManager.

(** ** Generators over a paginated scan

    A Python generator that pages through [boto_table.scan] is a small state
    machine: the items of the current page not yet yielded, and the request of
    the next page if the loop is to go round again. *)

Module Generator.
Import Store Py Py.Notations.

Record gen_state := {
  pending : list item;
  next_scan : option scan_kwargs;
}.

Inductive resumed :=
  | Yield (x : item) (st : gen_state)
  | Continue (st : gen_state)   (* fetched a page, nothing yielded yet *)
  | StopIteration.

Definition with_start (kw : scan_kwargs) (k : key) : scan_kwargs :=
  {| FilterExpression := FilterExpression kw;
     ScanValues := ScanValues kw;
     ExclusiveStartKey := Some k |}.

(** One step of
    [while True: paginated = scan(kw); for item in paginated['Items']: yield item;
     if 'LastEvaluatedKey' not in paginated: break; kw['ExclusiveStartKey'] = ...]. *)
Definition resume (st : gen_state) : M resumed :=
  match pending st, next_scan st with
  | x :: rest, nxt => ret (Yield x {| pending := rest; next_scan := nxt |})
  | [], Some kw =>
      let* paginated := Boto.scan kw in
      ret (Continue {| pending := Items paginated;
                       next_scan := with_start kw <$> LastEvaluatedKey paginated |})
  | [], None => ret StopIteration
  end.

(** [for item in gen: body(item)]. [None]: the fuel ran out first. *)
Fixpoint for_each (fuel : nat) (st : gen_state) (body : item → M unit) : M (option unit) :=
  match fuel with
  | O => ret None
  | S fuel' =>
      let* r := resume st in
      match r with
      | Yield x st' => body x ;; for_each fuel' st' body
      | Continue st' => for_each fuel' st' body
      | StopIteration => ret (Some ())
      end
  end.

(** [list(gen)] *)
Fixpoint drain (fuel : nat) (st : gen_state) : M (option (list item)) :=
  match fuel with
  | O => ret None
  | S fuel' =>
      let* r := resume st in
      match r with
      | Yield x st' => let* xs := drain fuel' st' in ret (cons x <$> xs)
      | Continue st' => drain fuel' st'
      | StopIteration => ret (Some [])
      end
  end.

(** Steps that always suffice on a table of this size. *)
Definition enough_fuel (t : table) : nat := 2 * size t + 2.

End Generator.

(** ** [migrations/post_0_to_1.py] *)

Module Post0To1.
Import Store Py Py.Notations Generator.

Definition scan_kwargs_of (version : Z) : scan_kwargs :=
  {| FilterExpression :=
       And (BeginsWith (Attr ["partitionKey"]) (Val ":pk_prefix"))
           (Cmp (Attr ["schemaVersion"]) CEq (Val ":sv"));
     ScanValues := <[":pk_prefix" := VS "post/"]> (<[":sv" := VN version]> ∅);
     ExclusiveStartKey := None |}.

(** Return a generator of all items in the table that pass the filter.
    [version] is an [int] by the assertion. *)
Definition generate_all_posts (version : Z) : gen_state :=
  {| pending := []; next_scan := Some (scan_kwargs_of version) |}.

Definition update_kwargs_of (k : key) : update_kwargs :=
  {| Key := k;
     UpdateExpression :=
       [(SET, [SetTo "postedByUserId" (Attr ["postedBy"; "userId"]);
               SetTo "schemaVersion" (Val ":one")]);
        (REMOVE, [Rm "postedBy"])];
     ConditionExpression :=
       Some (And (AttributeExists "partitionKey")
                 (Cmp (Attr ["schemaVersion"]) CEq (Val ":zero")));
     ExpressionAttributeNames := None;
     ExpressionAttributeValues := Some (<[":zero" := VN 0]> (<[":one" := VN 1]> ∅)) |}.

(** [like['partitionKey']], [like['sortKey']]: a missing one is a KeyError, one
    that is not a string is refused by the store. The printed dict is
    abbreviated to its key. *)
Definition update_post_from_0_to_1 (like : item) : M unit :=
  match like !! "partitionKey", like !! "sortKey" with
  | None, _ => raise (KeyError "partitionKey")
  | Some _, None => raise (KeyError "sortKey")
  | Some (VS p), Some (VS s) =>
      print ("Updating item: " +:+ p +:+ " " +:+ s +:+ " ... ") ;;
      Boto.update_item (update_kwargs_of (p, s)) ;;
      print "Done."
  | Some _, Some _ =>
      print "Updating item: ... " ;;
      Boto.store_call UpdateItem [] (λ _, inl ValidationException)
  end.

Definition main (fuel : nat) : M (option unit) :=
  for_each fuel (generate_all_posts 0) update_post_from_0_to_1.

End Post0To1.

(** ** [migrations/user_6_to_7.py] *)

Module User6To7.
Import Store Py Py.Notations.

(** The key of a user record, as the fixtures of
    [migrations_tests/test_user_6_to_7.py] write it. *)
Definition user_pk (user_id : string) : key := ("user/" +:+ user_id, "profile").

(** Modelled from the spec: [migrations/user_6_to_7.py] is not among the
    sources, only its tests are; this is [Migration.dynamo_update_user]. The
    update bumps schemaVersion and sets the derived field, on the condition
    that the record still lacks the field ([old_value] is None) or still holds
    exactly [old_value]; a failed condition raises the Exception
    "Update failed for user {id}". As in the sibling migration the record must
    exist. The count is written when it differs from what the record holds, an
    absent count being 0, so that a record without archived posts and without
    the field stays without it (test_migrate_user_with_none). *)
Definition dynamo_update_user_kwargs (user_id : string) (old_value : option Z) (new_value : Z)
  : update_kwargs :=
  let sets0 := [SetTo "schemaVersion" (Val ":sv")] in
  let values0 : gmap string value := <[":sv" := VN 7]> ∅ in
  let '(sets1, values1) :=
    if decide (new_value = default 0 old_value) then (sets0, values0)
    else ((sets0 ++ [SetTo "postArchivedCount" (Val ":new")])%list,
          <[":new" := VN new_value]> values0) in
  let '(cond1, values2) :=
    match old_value with
    | None => (AttributeNotExists "postArchivedCount", values1)
    | Some v => (Cmp (Attr ["postArchivedCount"]) CEq (Val ":old"), <[":old" := VN v]> values1)
    end in
  {| Key := user_pk user_id;
     UpdateExpression := [(SET, sets1)];
     ConditionExpression := Some (And (AttributeExists "partitionKey") cond1);
     ExpressionAttributeNames := None;
     ExpressionAttributeValues := Some values2 |}.

Definition update_failed (user_id : string) : string :=
  "Update failed for user " +:+ user_id.

Definition dynamo_update_user (user_id : string) (old_value : option Z) (new_value : Z) : M unit :=
  try_except
    (Boto.update_item (dynamo_update_user_kwargs user_id old_value new_value) ;; ret ())
    (λ e, match e with
          | ClientError ConditionalCheckFailedException =>
              Some (raise (Exception (update_failed user_id)))
          | _ => None
          end).

End User6To7.

(** ** Closed forms

    The requests the access classes build and what a request leaves in an
    item, written out once so that statements can name them. *)

Module Effects.
Import Store Py.

(** The rendering of [now or pendulum.now('utc')]. *)
Definition now_of (now : option DateTime) (w : world) : string :=
  to_iso8601_string (default (clock w) now).

(** What the update built by [set] does to an item. *)
Definition set_effect (name description : option string) (base : item) : item :=
  let b1 := match name with Some n => <["name" := VS n]> base | None => base end in
  match description with
  | Some d => if decide (d = "") then delete "description" b1 else <["description" := VS d]> b1
  | None => b1
  end.

(** The item that [add_album] writes. *)
Definition album_item (album_id user_id name : string) (description : option string)
    (created_at_str : string) : item :=
  let Item : item :=
    <["name" := VS name]> (
    <["createdAt" := VS created_at_str]> (
    <["ownedByUserId" := VS user_id]> (
    <["albumId" := VS album_id]> (
    <["gsiA1SortKey" := VS created_at_str]> (
    <["gsiA1PartitionKey" := VS ("album/" +:+ user_id)]> (
    <["schemaVersion" := VN 0]> (
    key_item (AlbumDynamo.pk album_id)))))))) in
  match description with
  | Some d => <["description" := VS d]> Item
  | None => Item
  end.

(** The item that [FlagDynamo.add] writes. *)
Definition flag_item (item_type item_id user_id now_str : string) : item :=
  <["createdAt" := VS now_str]> (
  <["gsiK1SortKey" := VS item_type]> (
  <["gsiK1PartitionKey" := VS ("flag/" +:+ user_id)]> (
  <["schemaVersion" := VN 0]> (
  key_item (FlagDynamo.pk item_type item_id user_id))))).

Definition post_count_positive (cur : option item) : bool :=
  match cur ≫= (.!! "postCount") with
  | Some (VN n) => bool_decide (0 < n)
  | _ => false
  end.

Definition set_delete_at_effect (delete_at : DateTime) (base : item) : item :=
  <["gsiK1SortKey" := VS (to_iso8601_string delete_at)]> (
  <["gsiK1PartitionKey" := VS "album"]> base).

Definition clear_delete_at_effect (base : item) : item :=
  delete "gsiK1SortKey" (delete "gsiK1PartitionKey" base).

Definition post_count (t : table) (album_id : string) : option value :=
  t !! AlbumDynamo.pk album_id ≫= (.!! "postCount").

Definition rank_count (t : table) (album_id : string) : option value :=
  t !! AlbumDynamo.pk album_id ≫= (.!! "rankCount").

Definition remove_post_kwargs (album_id now_str : string) : update_kwargs :=
  {| Key := AlbumDynamo.typed_pk album_id;
     UpdateExpression :=
       [(ADD, [AddTo "postCount" ":negative_one"]);
        (SET, [SetTo "postsLastUpdatedAt" (Val ":now")])];
     ExpressionAttributeNames := None;
     ExpressionAttributeValues :=
       Some (<[":negative_one" := VN (-1)]> (<[":now" := VS now_str]> (<[":zero" := VN 0]> ∅)));
     ConditionExpression :=
       Some (And (AttributeExists "partitionKey")
                 (Cmp (Attr ["postCount"]) CGt (Val ":zero"))) |}.

Definition add_post_kwargs (album_id : string) (old_rank_count : option Z) (now_str : string)
  : update_kwargs :=
  let values0 : gmap string value := <[":one" := VN 1]> (<[":now" := VS now_str]> ∅) in
  {| Key := AlbumDynamo.typed_pk album_id;
     UpdateExpression :=
       [(ADD, [AddTo "postCount" ":one"; AddTo "rankCount" ":one"]);
        (SET, [SetTo "postsLastUpdatedAt" (Val ":now")])];
     ExpressionAttributeNames := None;
     ExpressionAttributeValues :=
       Some (match old_rank_count with
             | Some rc => <[":rc" := VN rc]> values0
             | None => values0
             end);
     ConditionExpression :=
       Some (And (AttributeExists "partitionKey")
                 (match old_rank_count with
                  | Some _ => Cmp (Attr ["rankCount"]) CEq (Val ":rc")
                  | None => AttributeNotExists "rankCount"
                  end)) |}.

Definition increment_rank_count_kwargs (album_id : string) (old_rank_count : Z) (now_str : string)
  : update_kwargs :=
  {| Key := AlbumDynamo.typed_pk album_id;
     UpdateExpression :=
       [(ADD, [AddTo "rankCount" ":one"]);
        (SET, [SetTo "postsLastUpdatedAt" (Val ":now")])];
     ExpressionAttributeNames := None;
     ExpressionAttributeValues :=
       Some (<[":one" := VN 1]> (<[":now" := VS now_str]> (<[":rc" := VN old_rank_count]> ∅)));
     ConditionExpression :=
       Some (And (AttributeExists "partitionKey")
                 (Cmp (Attr ["rankCount"]) CEq (Val ":rc"))) |}.

(** The record is there and its rankCount is the one expected, an absent
    rankCount being expected when no old value is given. *)
Definition rank_matches (cur : option item) (old_rank_count : option Z) : Prop :=
  ∃ it, cur = Some it ∧ is_Some (it !! "partitionKey")
        ∧ it !! "rankCount" = VN <$> old_rank_count.

(** A post record at schema version [version]: what the filter of
    [generate_all_posts] asks for. *)
Definition post_at (version : Z) (it : item) : Prop :=
  match it !! "partitionKey" with
  | Some (VS p) => String.prefix "post/" p = true
  | _ => False
  end
  ∧ it !! "schemaVersion" = Some (VN version).

#[global] Instance post_at_dec version it : Decision (post_at version it).
Proof. unfold post_at. destruct (it !! "partitionKey") as [[p|n|m]|]; apply _. Defined.

Definition filter_env (version : Z) : expr_env :=
  mk_env None (Some (ScanValues (Post0To1.scan_kwargs_of version))).

(** What a successful update leaves in the record. *)
Definition updated_user (old_value : option Z) (new_value : Z) (it : item) : item :=
  let it1 := <["schemaVersion" := VN 7]> it in
  if decide (new_value = default 0 old_value) then it1
  else <["postArchivedCount" := VN new_value]> it1.

End Effects.

(** ** Small tables to run the code on *)

Module Fixtures.
Import Store Py.

(** An empty table behind a store that evaluates two items a scan call. *)
Definition w_empty : world :=
  {| tbl := ∅; page_limit := 2;
     clock := {| to_iso8601_string := "2020-01-01T00:00:00+00:00" |}; trace := [] |}.

(** An album with a description and no counters yet. *)
Definition album_a : item :=
  <["description" := VS "old"]> (<["name" := VS "n"]> (key_item (AlbumDynamo.pk "a"))).

Definition w_album : world := set_tbl (<[AlbumDynamo.pk "a" := album_a]> ∅) w_empty.

(** An album with one post. *)
Definition album_one_post : item :=
  <["postCount" := VN 1]> (<["name" := VS "n"]> (key_item (AlbumDynamo.pk "a"))).

Definition w_one_post : world :=
  set_tbl (<[AlbumDynamo.pk "a" := album_one_post]> ∅) w_empty.

(** An album whose postCount is back to 0. *)
Definition album_no_post : item :=
  <["postCount" := VN 0]> (<["name" := VS "n"]> (key_item (AlbumDynamo.pk "a"))).

Definition w_no_post : world :=
  set_tbl (<[AlbumDynamo.pk "a" := album_no_post]> ∅) w_empty.

(** Posts, as [post_0_to_1] finds them and as it leaves them. *)
Definition post_v0 (post_id user_id : string) : item :=
  <["postedBy" := VM (<["userId" := S_ user_id]> ∅)]> (
  <["schemaVersion" := VN 0]> (key_item ("post/" +:+ post_id, "-"))).

Definition post_v1 (post_id user_id : string) : item :=
  <["postedByUserId" := VS user_id]> (
  <["schemaVersion" := VN 1]> (key_item ("post/" +:+ post_id, "-"))).

Definition table_of (its : list item) : table :=
  list_to_map (omap (λ it, (λ k, (k, it)) <$> key_of it) its).

Definition w_posts : world :=
  set_tbl (table_of [post_v0 "p1" "u"; post_v1 "p2" "u"; post_v0 "p3" "v";
                     post_v0 "p4" "u"; album_a]) w_empty.

Definition w_migrated : world :=
  set_tbl (table_of [post_v1 "p1" "u"; post_v1 "p2" "u"; post_v1 "p3" "v";
                     album_a]) w_empty.

(** The fixture [user_with_two] of [migrations_tests/test_user_6_to_7.py]. *)
Definition user_with_two : item :=
  <["postArchivedCount" := VN 2]> (
  <["userId" := VS "U"]> (
  <["schemaVersion" := VN 6]> (
  key_item (User6To7.user_pk "U")))).

Definition w_user : world :=
  set_tbl (<[User6To7.user_pk "U" := user_with_two]> ∅) w_empty.

End Fixtures.

(** ** More closed forms *)

Module AlbumEffects.
Import Store Py.

(** What the update built by [set_album_art_hash] does to an item. *)
Definition art_hash_effect (art_hash : option string) (base : item) : item :=
  if truthy_str art_hash then <["artHash" := VS (default "" art_hash)]> base
  else delete "artHash" base.

(** The item under the key of an album, the bare key if there is none: what
    an update without a condition starts from. *)
Definition album_base (t : table) (album_id : string) : item :=
  default (key_item (AlbumDynamo.pk album_id)) (t !! AlbumDynamo.pk album_id).

(** Build a step and commit it on its own. *)
Definition commit (step : M transact_item) : M unit :=
  Py.bind step (λ s, Boto.transact_write_items [s]).

(** A counter as a number: an absent counter counts 0. *)
Definition count (o : option value) : Z :=
  match o with
  | Some (VN n) => n
  | _ => 0
  end.

(** A counter attribute that a transaction can add to. *)
Definition countable (o : option value) : Prop :=
  match o with
  | Some (VN _) | None => True
  | _ => False
  end.

End AlbumEffects.

Module CounterEffects.
Import Store Py AlbumEffects.

(** What adding a post leaves in the album. *)
Definition added (now_str : string) (it : item) : item :=
  <["postsLastUpdatedAt" := VS now_str]> (
  <["rankCount" := VN (count (it !! "rankCount") + 1)]> (
  <["postCount" := VN (count (it !! "postCount") + 1)]> it)).

(** What incrementing the rank count leaves in the album. *)
Definition incremented (now_str : string) (it : item) : item :=
  <["postsLastUpdatedAt" := VS now_str]> (
  <["rankCount" := VN (count (it !! "rankCount") + 1)]> it).

(** The attributes the counter transactions write. *)
Definition counter_attr (a : string) : Prop :=
  a = "postCount" ∨ a = "rankCount" ∨ a = "postsLastUpdatedAt".

End CounterEffects.

Module Invariants.
Import Store Py.

(** A computation that leaves a well-formed table well formed, however it
    ends. *)
Definition keeps_wf {A} (m : M A) : Prop :=
  ∀ w, table_wf (tbl w) → table_wf (tbl (m w).2).

End Invariants.

Module MigrationEffects.
Import Store Py.

(** What [update_post_from_0_to_1] makes of a post: the user id moves out of
    [postedBy] into [postedByUserId], the schema version becomes 1. [None]:
    the post has no [postedBy.userId]. *)
Definition migrated_post (it : item) : option item :=
  match get_path it ["postedBy"; "userId"] with
  | Some v =>
      Some (delete "postedBy" (<["schemaVersion" := VN 1]> (<["postedByUserId" := v]> it)))
  | None => None
  end.

(** A record at schema version 0 and its migrated form. *)
Definition migration_step (it it' : item) : Prop :=
  it !! "schemaVersion" = Some (VN 0) ∧ migrated_post it = Some it'.

(** [t] comes from [t0] by migrating some of its records, and by nothing
    else: no record is added, removed or changed in any other way. *)
Definition migration_of (t0 t : table) : Prop :=
  ∀ k, t !! k = t0 !! k
       ∨ ∃ it it', t0 !! k = Some it ∧ t !! k = Some it' ∧ migration_step it it'.


End MigrationEffects.

Module UserEffects.
Import Store Py UserManager.

(** The index is being rebuilt by hand for this record. *)
Definition reindexed (old_item new_item : item) : bool :=
  truthy_str (get_S new_item "lastManuallyReindexedAt")
  && bool_decide (get_S new_item "lastManuallyReindexedAt"
                  ≠ get_S old_item "lastManuallyReindexedAt").

(** The status of a user record, ACTIVE unless it says otherwise. *)
Definition status_of (ACTIVE : string) (it : item) : string :=
  default ACTIVE (get_S it "userStatus").

(** A user record as the change stream shows it. *)
Definition user_record (email status : string) : item :=
  <["email" := VS email]> (<["userStatus" := VS status]> (<["userId" := VS "U"]> ∅)).

End UserEffects.

Module Placeholders.
Import Store Py.

(** The placeholders an expression mentions: values [:v] and names [#n]. *)
Definition operand_values (o : operand) : list string :=
  match o with
  | Val v => [v]
  | Attr _ => []
  end.

Definition name_placeholders (a : string) : list string :=
  if is_name_placeholder a then [a] else [].

Definition operand_names (o : operand) : list string :=
  match o with
  | Val _ => []
  | Attr p => p ≫= name_placeholders
  end.

Fixpoint cond_values (c : cond) : list string :=
  match c with
  | AttributeExists _ | AttributeNotExists _ => []
  | Cmp l _ r | BeginsWith l r => operand_values l ++ operand_values r
  | And c1 c2 => cond_values c1 ++ cond_values c2
  | Not c => cond_values c
  end.

Fixpoint cond_names (c : cond) : list string :=
  match c with
  | AttributeExists a | AttributeNotExists a => name_placeholders a
  | Cmp l _ r | BeginsWith l r => operand_names l ++ operand_names r
  | And c1 c2 => cond_names c1 ++ cond_names c2
  | Not c => cond_names c
  end.

Definition clause_values (c : clause) : list string :=
  match c with
  | SetTo _ rhs => operand_values rhs
  | Rm _ => []
  | AddTo _ v => [v]
  end.

Definition clause_names (c : clause) : list string :=
  match c with
  | SetTo a rhs => name_placeholders a ++ operand_names rhs
  | Rm a | AddTo a _ => name_placeholders a
  end.

Definition update_values (kw : update_kwargs) : list string :=
  (UpdateExpression kw ≫= λ kv, kv.2 ≫= clause_values)
  ++ default [] (cond_values <$> ConditionExpression kw).

Definition update_names (kw : update_kwargs) : list string :=
  (UpdateExpression kw ≫= λ kv, kv.2 ≫= clause_names)
  ++ default [] (cond_names <$> ConditionExpression kw).

(** A dict of placeholders that the store accepts for these mentions: none
    sent when none is mentioned, never an empty one, and otherwise exactly
    the placeholders mentioned. *)
Definition declares {V} (d : option (gmap string V)) (mentioned : list string) : Prop :=
  match d with
  | None => mentioned = []
  | Some m => m ≠ ∅ ∧ dom m = list_to_set mentioned
  end.

(** A request whose expressions and placeholders fit: each keyword once,
    each clause under its keyword, each placeholder mentioned declared and
    each one declared mentioned. *)
Definition request_fits (kw : update_kwargs) : Prop :=
  NoDup (UpdateExpression kw).*1
  ∧ is_Some (update_clauses (UpdateExpression kw))
  ∧ UpdateExpression kw ≠ []
  ∧ declares (ExpressionAttributeValues kw) (update_values kw)
  ∧ declares (ExpressionAttributeNames kw) (update_names kw).

End Placeholders.


(** Lookups in a dict written out as inserts under literal keys. *)
Ltac lookups :=
  repeat first
    [ rewrite lookup_insert_eq
    | rewrite lookup_insert_ne by done
    | rewrite lookup_empty ];
  simpl.

(** * Properties *)

(** ** Facts about the store *)

Module StoreFacts.
Import Store.

Lemma key_of_key_item (k : key) : key_of (key_item k) = Some k.
Proof. by destruct k. Qed.

Lemma key_of_nonempty (it : item) (k : key) : key_of it = Some k → size it ≠ 0%nat.
Proof.
  unfold key_of. intros Hk Hsz. apply map_size_empty_iff in Hsz. subst it.
  by rewrite lookup_empty in Hk.
Qed.

Lemma key_of_partition_key (it : item) (k : key) :
  key_of it = Some k → it !! "partitionKey" = Some (VS k.1).
Proof.
  unfold key_of. intros Hk.
  destruct (it !! "partitionKey") as [[]|]; try done.
  destruct (it !! "sortKey") as [[]|]; try done.
  by simplify_eq.
Qed.

Lemma update_item_ok (t : table) (kw : update_kwargs) (it' : item) :
  eval_cond_opt (env_of kw) (t !! Key kw) (ConditionExpression kw) = Some true →
  apply_update (env_of kw) (default (key_item (Key kw)) (t !! Key kw)) (UpdateExpression kw)
    = Some it' →
  update_item t kw = inr (<[Key kw := it']> t, it').
Proof. intros Hc Hu. unfold update_item. by rewrite Hc, Hu. Qed.

Lemma update_item_failed (t : table) (kw : update_kwargs) :
  eval_cond_opt (env_of kw) (t !! Key kw) (ConditionExpression kw) = Some false →
  update_item t kw = inl ConditionalCheckFailedException.
Proof. intros Hc. unfold update_item. by rewrite Hc. Qed.

(** An update never touches the key attributes of the item. *)
Lemma apply_clause_keeps (env : expr_env) (old acc acc' : item) (c : clause) (a : string) :
  is_key_attr a = true →
  apply_clause env old acc c = Some acc' → acc' !! a = acc !! a.
Proof.
  intros Ha. destruct c as [lhs rhs|b|b ph]; simpl.
  - destruct (resolve_name env lhs) as [a'|]; [simpl|done].
    destruct (is_key_attr a') eqn:Hk; [done|].
    destruct (eval_operand env (Some old) rhs) as [[v|]|]; simpl; try done.
    intros [= <-]. rewrite lookup_insert_ne; [done|]. intros ->. congruence.
  - destruct (resolve_name env b) as [a'|]; [simpl|done].
    destruct (is_key_attr a') eqn:Hk; [done|].
    intros [= <-]. rewrite lookup_delete_ne; [done|]. intros ->. congruence.
  - destruct (resolve_name env b) as [a'|]; [simpl|done].
    destruct (is_key_attr a') eqn:Hk; [done|].
    destruct (values env !! ph) as [[| d |]|]; try done.
    destruct (old !! a') as [[| n |]|]; try done;
      intros [= <-]; (rewrite lookup_insert_ne; [done|]); intros ->; congruence.
Qed.

Lemma apply_clauses_keeps (env : expr_env) (old : item) (cs : list clause) (a : string) :
  is_key_attr a = true →
  ∀ acc acc', apply_clauses env old acc cs = Some acc' → acc' !! a = acc !! a.
Proof.
  intros Ha. induction cs as [|c cs IH]; intros acc acc'; simpl.
  - by intros [= <-].
  - destruct (apply_clause env old acc c) as [acc1|] eqn:Hc; [simpl|done].
    intros H. rewrite (IH _ _ H). eauto using apply_clause_keeps.
Qed.

Lemma apply_update_key_of (env : expr_env) (it it' : item) (ue : update_expression) :
  apply_update env it ue = Some it' → key_of it' = key_of it.
Proof.
  unfold apply_update. destruct (update_clauses ue) as [cs|]; [simpl|done].
  intros H. unfold key_of.
  by rewrite (apply_clauses_keeps env it cs "partitionKey" eq_refl _ _ H),
             (apply_clauses_keeps env it cs "sortKey" eq_refl _ _ H).
Qed.

(** PutItem, UpdateItem and DeleteItem keep the table well formed. *)
Lemma put_item_wf (t t' : table) (it : item) (c : option cond) :
  table_wf t → put_item t it c = inr t' → table_wf t'.
Proof.
  unfold put_item. intros Hwf.
  destruct (key_of it) as [k|] eqn:Hk; [|done].
  destruct (eval_cond_opt _ _ c) as [[]|]; try done.
  intros [= <-] k' it1. rewrite lookup_insert. case_decide; naive_solver.
Qed.

Lemma update_item_wf (t t' : table) (kw : update_kwargs) (it' : item) :
  table_wf t → update_item t kw = inr (t', it') → table_wf t'.
Proof.
  unfold update_item. intros Hwf.
  destruct (eval_cond_opt _ _ _) as [[]|]; try done.
  destruct (apply_update _ _ _) as [it1|] eqn:Hu; [|done].
  intros [= <- <-] k' it2. rewrite lookup_insert. case_decide; [|by apply Hwf].
  intros [= <-]. subst k'. rewrite (apply_update_key_of _ _ _ _ Hu).
  destruct (t !! Key kw) as [it0|] eqn:H0; simpl; [by apply Hwf|apply key_of_key_item].
Qed.

Lemma delete_item_wf (t : table) (k : key) : table_wf t → table_wf (delete_item t k).1.
Proof.
  intros Hwf k' it. simpl. rewrite lookup_delete. case_decide; [done|apply Hwf].
Qed.

End StoreFacts.

(** ** Facts about [AlbumDynamo.set] *)

Module AlbumSetFacts.
Import Store Py Py.Notations AlbumDynamo.
Import Effects Fixtures.

(** The text of the update, as the Python code joins it. *)
Example set_renders_both :
  render_update (UpdateExpression (set_kwargs "a" (Some "n") (Some "d")))
  = "SET #name = :name, description = :description".
Proof. reflexivity. Qed.

Example set_renders_remove :
  render_update (UpdateExpression (set_kwargs "a" (Some "n") (Some "")))
  = "SET #name = :name REMOVE description".
Proof. reflexivity. Qed.

Lemma set_kwargs_cond (album_id : string) (name description : option string) (cur : option item) :
  let kw := set_kwargs album_id name description in
  eval_cond_opt (env_of kw) cur (ConditionExpression kw) = Some true.
Proof.
  unfold set_kwargs.
  destruct name, description as [d|]; simpl; try destruct (decide (d = "")); reflexivity.
Qed.

Lemma set_kwargs_key (album_id : string) (name description : option string) :
  Key (set_kwargs album_id name description) = pk album_id.
Proof.
  unfold set_kwargs.
  destruct name, description as [d|]; simpl; try destruct (decide (d = "")); reflexivity.
Qed.

Lemma set_kwargs_apply (album_id : string) (name description : option string) (base : item) :
  let kw := set_kwargs album_id name description in
  apply_update (env_of kw) base (UpdateExpression kw) = Some (set_effect name description base).
Proof.
  unfold set_effect, set_kwargs.
  destruct name as [n|], description as [d|];
    try destruct (decide (d = "")) as [->|Hd]; reflexivity.
Qed.

Lemma set_runs (album_id : string) (name description : option string) (w : world) :
  name ≠ Some "" → (name ≠ None ∨ description ≠ None) →
  let base := default (key_item (pk album_id)) (tbl w !! pk album_id) in
  let it' := set_effect name description base in
  set album_id name description w =
    (inr (inr it'),
     set_tbl (<[pk album_id := it']> (tbl w)) (emit (Request UpdateItem [pk album_id]) w)).
Proof.
  intros Hn Hsome base it'.
  unfold set, bind, assert.
  assert (bool_decide (name ≠ None) || bool_decide (description ≠ None) = true) as ->.
  { destruct Hsome; [rewrite bool_decide_eq_true_2|rewrite (bool_decide_eq_true_2 (description ≠ None))];
      try done. apply orb_true_r. }
  rewrite (bool_decide_eq_true_2 _ Hn). simpl.
  unfold DynamoClient.update_item, try_except, bind, Boto.update_item, Boto.store_call.
  pose proof (StoreFacts.update_item_ok (tbl w) (set_kwargs album_id name description) it') as Hu.
  rewrite set_kwargs_key in Hu. rewrite set_kwargs_key.
  rewrite Hu; [done|apply set_kwargs_cond|apply set_kwargs_apply].
Qed.

(** C9. Empty-string-removes convention: [set] with description [''] removes
    the description attribute of the album's item, a non-empty description
    sets it to the value given, a name given is set, and every attribute the
    call does not mention is what it was (so is every other record). *)
Theorem set_description_convention (album_id : string) (name : option string)
    (description : string) (w : world) :
  name ≠ Some "" →
  let base := default (key_item (pk album_id)) (tbl w !! pk album_id) in
  ∃ it' : item,
    set album_id name (Some description) w =
      (inr (inr it'),
       set_tbl (<[pk album_id := it']> (tbl w)) (emit (Request UpdateItem [pk album_id]) w))
    ∧ it' !! "description" = (if decide (description = "") then None else Some (VS description))
    ∧ (∀ n, name = Some n → it' !! "name" = Some (VS n))
    ∧ (∀ a, a ≠ "description" → (name = None ∨ a ≠ "name") → it' !! a = base !! a).
Proof.
  intros Hn base. eexists. split; [apply set_runs; [done|by right]|].
  fold base. unfold set_effect.
  destruct (decide (description = "")) as [->|Hd]; repeat split.
  - by rewrite lookup_delete_eq.
  - intros n ->. rewrite lookup_delete_ne; [|done]. by rewrite lookup_insert_eq.
  - intros a Ha Hname. rewrite lookup_delete_ne; [|done].
    destruct name as [n|]; [|done]. destruct Hname as [|Hne]; [done|].
    by rewrite lookup_insert_ne.
  - by rewrite lookup_insert_eq.
  - intros n ->. rewrite lookup_insert_ne; [|done]. by rewrite lookup_insert_eq.
  - intros a Ha Hname. rewrite lookup_insert_ne; [|done].
    destruct name as [n|]; [|done]. destruct Hname as [|Hne]; [done|].
    by rewrite lookup_insert_ne.
Qed.

Lemma set_description_convention_witness :
  (None : option string) ≠ Some "" ∧
  ∃ it' : item,
    (set "a" None (Some "") w_album).1 = inr (inr it')
    ∧ it' !! "description" = None
    ∧ it' !! "name" = Some (VS "n").
Proof.
  split; [done|].
  destruct (set_description_convention "a" None "" w_album ltac:(done)) as (it' & Hrun & Hd & _ & Hrest).
  exists it'. split; [by rewrite Hrun|]. split; [exact Hd|].
  rewrite (Hrest "name"); [reflexivity|done|by left].
Defined.

(** C10. The assertions of [set]: with neither a name nor a description, or
    with the empty string as name, [set] raises AssertionError and the world
    is as before, no request having been sent; the empty string is not a way
    to remove the name. When the name is None or non-empty and one of the two
    is given, no assertion fails: [set] is the client's update of the request
    built. *)
Theorem set_assertions (album_id : string) (w : world) :
  set album_id None None w = (inl (AssertionError "Action-less post edit requested"), w)
  ∧ (∀ description,
       set album_id (Some "") description w = (inl (AssertionError "All albums must have names"), w))
  ∧ (∀ name description,
       name ≠ Some "" → (name ≠ None ∨ description ≠ None) →
       set album_id name description w
         = DynamoClient.update_item (set_kwargs album_id name description) None w
       ∧ ∀ msg, (set album_id name description w).1 ≠ inl (AssertionError msg)).
Proof.
  split; [done|]. split; [done|].
  intros name description Hn Hsome.
  rewrite (set_runs _ _ _ _ Hn Hsome). split; [|done].
  unfold DynamoClient.update_item, try_except, bind, Boto.update_item, Boto.store_call.
  pose proof (StoreFacts.update_item_ok (tbl w) (set_kwargs album_id name description)
                (set_effect name description
                   (default (key_item (pk album_id)) (tbl w !! pk album_id)))) as Hu.
  rewrite set_kwargs_key in Hu. rewrite set_kwargs_key.
  rewrite Hu; [done|apply set_kwargs_cond|apply set_kwargs_apply].
Qed.

Lemma set_assertions_witness :
  (Some "n" : option string) ≠ Some "" ∧
  ∀ msg, (set "a" (Some "n") None w_album).1 ≠ inl (AssertionError msg).
Proof.
  split; [done|].
  destruct (set_assertions "a" w_album) as (_ & _ & H).
  apply (H (Some "n") None); [done|by left].
Defined.

End AlbumSetFacts.

(** ** Create and delete *)

Module CreateDeleteFacts.
Import Store Py Py.Notations.
Import Effects Fixtures.

(** The client's [add_item] on a free key and on a taken one. *)
Lemma add_item_fresh (it : item) (k : key) (w : world) :
  key_of it = Some k → tbl w !! k = None →
  DynamoClient.add_item it w =
    (inr it, set_tbl (<[k := it]> (tbl w)) (emit (Request PutItem [k]) w)).
Proof.
  intros Hk Hfree.
  unfold DynamoClient.add_item, bind, Boto.put_item, Boto.store_call, put_item.
  rewrite Hk. simpl. by rewrite Hfree.
Qed.

Lemma add_item_taken (it it0 : item) (k : key) (w : world) :
  key_of it = Some k → tbl w !! k = Some it0 → is_Some (it0 !! "partitionKey") →
  DynamoClient.add_item it w =
    (inl (ClientError ConditionalCheckFailedException), emit (Request PutItem [k]) w).
Proof.
  intros Hk Htaken Hpk.
  unfold DynamoClient.add_item, bind, Boto.put_item, Boto.store_call, put_item.
  rewrite Hk. simpl. rewrite Htaken. simpl.
  rewrite bool_decide_eq_false_2; [done|].
  destruct Hpk as [v Hv]. by rewrite Hv.
Qed.

(** The client's [delete_item]. *)
Lemma delete_item_run (k : key) (w : world) :
  DynamoClient.delete_item k w =
    (inr (tbl w !! k), set_tbl (delete k (tbl w)) (emit (Request DeleteItem [k]) w)).
Proof. reflexivity. Qed.

Lemma truthy_stored (t : table) (k : key) (it : item) :
  table_wf t → t !! k = Some it → truthy it = true.
Proof.
  intros Hwf Hit. unfold truthy.
  apply negb_true_iff, Nat.eqb_neq. eauto using StoreFacts.key_of_nonempty.
Qed.

Lemma album_item_key album_id user_id name description created_at_str :
  key_of (album_item album_id user_id name description created_at_str)
  = Some (AlbumDynamo.pk album_id).
Proof. by destruct description. Qed.

Lemma add_album_unfold album_id user_id name description created_at (w : world) :
  AlbumDynamo.add_album album_id user_id name description created_at w =
    try_except
      (DynamoClient.add_item
         (album_item album_id user_id name description (now_of created_at w)))
      (λ e, match e with
            | ClientError ConditionalCheckFailedException =>
                Some (raise (AlbumAlreadyExists album_id))
            | _ => None
            end) w.
Proof. by destruct created_at, description. Qed.

Lemma add_album_fresh album_id user_id name description created_at (w : world) :
  tbl w !! AlbumDynamo.pk album_id = None →
  let it := album_item album_id user_id name description (now_of created_at w) in
  AlbumDynamo.add_album album_id user_id name description created_at w =
    (inr it, set_tbl (<[AlbumDynamo.pk album_id := it]> (tbl w))
               (emit (Request PutItem [AlbumDynamo.pk album_id]) w)).
Proof.
  intros Hfree it. rewrite add_album_unfold. unfold try_except.
  by erewrite add_item_fresh by eauto using album_item_key.
Qed.

Lemma add_album_taken album_id user_id name description created_at (w : world) (it0 : item) :
  tbl w !! AlbumDynamo.pk album_id = Some it0 → is_Some (it0 !! "partitionKey") →
  AlbumDynamo.add_album album_id user_id name description created_at w =
    (inl (AlbumAlreadyExists album_id), emit (Request PutItem [AlbumDynamo.pk album_id]) w).
Proof.
  intros Htaken Hpk. rewrite add_album_unfold. unfold try_except.
  by erewrite add_item_taken by eauto using album_item_key.
Qed.

Lemma flag_item_key item_type item_id user_id now_str :
  key_of (flag_item item_type item_id user_id now_str)
  = Some (FlagDynamo.pk item_type item_id user_id).
Proof. reflexivity. Qed.

Lemma flag_add_unfold item_type item_id user_id now (w : world) :
  FlagDynamo.add item_type item_id user_id now w =
    try_except
      (DynamoClient.add_item (flag_item item_type item_id user_id (now_of now w)))
      (λ e, match e with
            | ClientError ConditionalCheckFailedException =>
                Some (raise (AlreadyFlagged item_type item_id user_id))
            | _ => None
            end) w.
Proof. by destruct now. Qed.

Lemma flag_add_fresh item_type item_id user_id now (w : world) :
  tbl w !! FlagDynamo.pk item_type item_id user_id = None →
  let it := flag_item item_type item_id user_id (now_of now w) in
  FlagDynamo.add item_type item_id user_id now w =
    (inr it, set_tbl (<[FlagDynamo.pk item_type item_id user_id := it]> (tbl w))
               (emit (Request PutItem [FlagDynamo.pk item_type item_id user_id]) w)).
Proof.
  intros Hfree it. rewrite flag_add_unfold. unfold try_except.
  by erewrite add_item_fresh by eauto using flag_item_key.
Qed.

Lemma flag_add_taken item_type item_id user_id now (w : world) (it0 : item) :
  tbl w !! FlagDynamo.pk item_type item_id user_id = Some it0 →
  is_Some (it0 !! "partitionKey") →
  FlagDynamo.add item_type item_id user_id now w =
    (inl (AlreadyFlagged item_type item_id user_id),
     emit (Request PutItem [FlagDynamo.pk item_type item_id user_id]) w).
Proof.
  intros Htaken Hpk. rewrite flag_add_unfold. unfold try_except.
  by erewrite add_item_taken by eauto using flag_item_key.
Qed.

(** C5. Create uniqueness: on a free key the first [add_album] (the first
    [FlagDynamo.add]) inserts its record; a second add under the same key,
    whatever its other arguments, raises AlbumAlreadyExists (AlreadyFlagged),
    not the store's ConditionalCheckFailedException, and the table still holds
    the first record, unmodified. *)
Theorem create_uniqueness (w : world) :
  (∀ album_id user_id name description created_at user_id' name' description' created_at',
     tbl w !! AlbumDynamo.pk album_id = None →
     ∃ it w1 w2,
       AlbumDynamo.add_album album_id user_id name description created_at w = (inr it, w1)
       ∧ tbl w1 = <[AlbumDynamo.pk album_id := it]> (tbl w)
       ∧ AlbumDynamo.add_album album_id user_id' name' description' created_at' w1
           = (inl (AlbumAlreadyExists album_id), w2)
       ∧ tbl w2 = tbl w1
       ∧ tbl w2 !! AlbumDynamo.pk album_id = Some it)
  ∧ (∀ item_type item_id user_id now now',
     tbl w !! FlagDynamo.pk item_type item_id user_id = None →
     ∃ it w1 w2,
       FlagDynamo.add item_type item_id user_id now w = (inr it, w1)
       ∧ tbl w1 = <[FlagDynamo.pk item_type item_id user_id := it]> (tbl w)
       ∧ FlagDynamo.add item_type item_id user_id now' w1
           = (inl (AlreadyFlagged item_type item_id user_id), w2)
       ∧ tbl w2 = tbl w1
       ∧ tbl w2 !! FlagDynamo.pk item_type item_id user_id = Some it).
Proof.
  split.
  - intros album_id user_id name description created_at user_id' name' description' created_at' Hfree.
    eexists _, _, _. split; [by apply add_album_fresh|]. split; [done|].
    split.
    { eapply add_album_taken; [apply lookup_insert_eq|].
      erewrite StoreFacts.key_of_partition_key by apply album_item_key. by eexists. }
    split; [done|]. apply lookup_insert_eq.
  - intros item_type item_id user_id now now' Hfree.
    eexists _, _, _. split; [by apply flag_add_fresh|]. split; [done|].
    split.
    { eapply flag_add_taken; [apply lookup_insert_eq|].
      erewrite StoreFacts.key_of_partition_key by apply flag_item_key. by eexists. }
    split; [done|]. apply lookup_insert_eq.
Qed.

Lemma create_uniqueness_witness :
  tbl Fixtures.w_empty !! AlbumDynamo.pk "a" = None ∧
  ∃ it w1 w2,
    AlbumDynamo.add_album "a" "u" "holiday" None None Fixtures.w_empty = (inr it, w1)
    ∧ tbl w1 = <[AlbumDynamo.pk "a" := it]> (tbl Fixtures.w_empty)
    ∧ AlbumDynamo.add_album "a" "v" "other" (Some "d") None w1
        = (inl (AlbumAlreadyExists "a"), w2)
    ∧ tbl w2 = tbl w1
    ∧ tbl w2 !! AlbumDynamo.pk "a" = Some it.
Proof.
  split; [reflexivity|].
  apply (proj1 (create_uniqueness Fixtures.w_empty) "a" "u" "holiday" None None
           "v" "other" (Some "d") None).
  reflexivity.
Defined.

(** C6. Delete raises-iff-absent: on a well-formed table [delete_album]
    raises AlbumDoesNotExist ([FlagDynamo.delete] raises NotFlagged) exactly
    when no record is stored under the key, and returns normally exactly when
    one is; either way the key is free afterwards and a get returns nothing. *)
Theorem delete_raises_iff_absent (w : world) :
  table_wf (tbl w) →
  (∀ album_id,
     let r := AlbumDynamo.delete_album album_id w in
     (r.1 = inl (AlbumDoesNotExist album_id) ↔ tbl w !! AlbumDynamo.pk album_id = None)
     ∧ (∀ it, r.1 = inr it ↔ tbl w !! AlbumDynamo.pk album_id = Some it)
     ∧ tbl r.2 = delete (AlbumDynamo.pk album_id) (tbl w)
     ∧ ∀ sc, AlbumDynamo.get_album album_id sc r.2 = (inr None, r.2))
  ∧ (∀ item_type item_id user_id,
     let r := FlagDynamo.delete item_type item_id user_id w in
     (r.1 = inl (NotFlagged item_type item_id user_id)
        ↔ tbl w !! FlagDynamo.pk item_type item_id user_id = None)
     ∧ (r.1 = inr () ↔ is_Some (tbl w !! FlagDynamo.pk item_type item_id user_id))
     ∧ tbl r.2 = delete (FlagDynamo.pk item_type item_id user_id) (tbl w)
     ∧ FlagDynamo.get item_type item_id user_id r.2 = (inr None, r.2)).
Proof.
  intros Hwf. split.
  - intros album_id r. subst r.
    unfold AlbumDynamo.delete_album, bind. rewrite delete_item_run.
    unfold AlbumDynamo.get_album, DynamoClient.get_item, Boto.get_item, Store.get_item.
    destruct (tbl w !! AlbumDynamo.pk album_id) as [it|] eqn:Hit.
    + rewrite (truthy_stored _ _ _ Hwf Hit). simpl.
      repeat split; try done; try naive_solver.
      intros sc. by rewrite lookup_delete_eq.
    + simpl. repeat split; try done.
      intros sc. by rewrite lookup_delete_eq.
  - intros item_type item_id user_id r. subst r.
    unfold FlagDynamo.delete, bind. rewrite delete_item_run.
    unfold FlagDynamo.get, DynamoClient.get_item, Boto.get_item, Store.get_item.
    destruct (tbl w !! FlagDynamo.pk item_type item_id user_id) as [it|] eqn:Hit.
    + simpl. rewrite (truthy_stored _ _ _ Hwf Hit). simpl.
      repeat split; try done; try naive_solver.
      by rewrite lookup_delete_eq.
    + simpl. repeat split; try done; try (by intros []).
      by rewrite lookup_delete_eq.
Qed.

Lemma w_album_wf : table_wf (tbl Fixtures.w_album).
Proof.
  intros k it. simpl. rewrite lookup_insert. case_decide; [|by rewrite lookup_empty].
  intros [= <-]. by subst k.
Qed.

Lemma delete_raises_iff_absent_witness :
  table_wf (tbl Fixtures.w_album) ∧
  (AlbumDynamo.delete_album "a" Fixtures.w_album).1 = inr Fixtures.album_a ∧
  (AlbumDynamo.delete_album "b" Fixtures.w_album).1 = inl (AlbumDoesNotExist "b").
Proof.
  split; [exact w_album_wf|].
  pose proof (proj1 (delete_raises_iff_absent Fixtures.w_album w_album_wf)) as H.
  split.
  - apply (proj1 (proj2 (H "a"))). reflexivity.
  - apply (proj1 (H "b")). reflexivity.
Defined.

End CreateDeleteFacts.

(** ** Fail-soft index maintenance *)

Module FailSoftFacts.
Import Store Py Py.Notations AlbumDynamo.
Import Effects Fixtures.

(** The three ways out of the client's [update_item] when a warning is given. *)
Lemma update_item_soft (kw : update_kwargs) (msg : string) (w : world) :
  DynamoClient.update_item kw (Some msg) w =
    match Store.update_item (tbl w) kw with
    | inr (t', it') => (inr (inr it'), set_tbl t' (emit (Request UpdateItem [Key kw]) w))
    | inl ConditionalCheckFailedException =>
        (inr (inl ConditionalCheckFailedException),
         emit (Warning msg) (emit (Request UpdateItem [Key kw]) w))
    | inl e => (inl (ClientError e), emit (Request UpdateItem [Key kw]) w)
    end.
Proof.
  unfold DynamoClient.update_item, try_except, bind, Boto.update_item, Boto.store_call.
  by destruct (Store.update_item (tbl w) kw) as [[]|[]].
Qed.

(** Without a warning the failed condition is raised. *)
Lemma update_item_hard (kw : update_kwargs) (w : world) :
  Store.update_item (tbl w) kw = inl ConditionalCheckFailedException →
  DynamoClient.update_item kw None w =
    (inl (ClientError ConditionalCheckFailedException), emit (Request UpdateItem [Key kw]) w).
Proof.
  intros H.
  unfold DynamoClient.update_item, try_except, bind, Boto.update_item, Boto.store_call.
  by rewrite H.
Qed.

Example set_delete_at_condition_text :
  render_cond <$> ConditionExpression (set_delete_at_kwargs "a" {| to_iso8601_string := "t" |})
  = Some "NOT postCount > :zero".
Proof. reflexivity. Qed.

Lemma set_delete_at_cond (album_id : string) (delete_at : DateTime) (cur : option item) :
  let kw := set_delete_at_kwargs album_id delete_at in
  eval_cond_opt (env_of kw) cur (ConditionExpression kw) = Some (negb (post_count_positive cur)).
Proof.
  unfold post_count_positive. destruct cur as [it|]; simpl; [|done].
  by destruct (it !! "postCount") as [[]|].
Qed.

Lemma set_delete_at_store (album_id : string) (delete_at : DateTime) (t : table) :
  Store.update_item t (set_delete_at_kwargs album_id delete_at) =
    if post_count_positive (t !! pk album_id) then inl ConditionalCheckFailedException
    else
      let it' := set_delete_at_effect delete_at (default (key_item (pk album_id)) (t !! pk album_id)) in
      inr (<[pk album_id := it']> t, it').
Proof.
  destruct (post_count_positive (t !! pk album_id)) eqn:Hp.
  - apply StoreFacts.update_item_failed. rewrite set_delete_at_cond. simpl. by rewrite Hp.
  - apply StoreFacts.update_item_ok; [|done].
    rewrite set_delete_at_cond. simpl. by rewrite Hp.
Qed.

Lemma clear_delete_at_store (album_id : string) (t : table) :
  Store.update_item t (clear_delete_at_kwargs album_id) =
    let it' := clear_delete_at_effect (default (key_item (pk album_id)) (t !! pk album_id)) in
    inr (<[pk album_id := it']> t, it').
Proof. by apply StoreFacts.update_item_ok. Qed.

(** C7. Fail-soft index maintenance: [set_delete_at_fail_soft] and
    [clear_delete_at_fail_soft] never raise. When the condition of
    [set_delete_at_fail_soft] fails (the album has a positive postCount) the
    supplied warning is logged, the failure is the value returned and the
    table is as before; otherwise the index attributes are written. In general
    the client's update with a warning never raises the failed condition, it
    logs the warning and returns the failure. *)
Theorem fail_soft_never_raises (album_id : string) (delete_at : DateTime) (w : world) :
  let r := set_delete_at_fail_soft album_id delete_at w in
  let cur := tbl w !! pk album_id in
  let sent := emit (Request UpdateItem [pk album_id]) w in
  (∃ res, r.1 = inr res)
  ∧ (post_count_positive cur = true →
       r = (inr (inl ConditionalCheckFailedException),
            emit (Warning (set_delete_at_warning album_id)) sent))
  ∧ (post_count_positive cur = false →
       ∃ it', r = (inr (inr it'), set_tbl (<[pk album_id := it']> (tbl w)) sent)
              ∧ it' !! "gsiK1PartitionKey" = Some (VS "album")
              ∧ it' !! "gsiK1SortKey" = Some (VS (to_iso8601_string delete_at)))
  ∧ (∃ it', clear_delete_at_fail_soft album_id w
              = (inr (inr it'), set_tbl (<[pk album_id := it']> (tbl w)) sent))
  ∧ (∀ kw msg w0,
       (DynamoClient.update_item kw (Some msg) w0).1
         ≠ inl (ClientError ConditionalCheckFailedException)
       ∧ (Store.update_item (tbl w0) kw = inl ConditionalCheckFailedException →
          DynamoClient.update_item kw (Some msg) w0 =
            (inr (inl ConditionalCheckFailedException),
             emit (Warning msg) (emit (Request UpdateItem [Key kw]) w0)))).
Proof.
  intros r cur sent. subst r cur sent.
  unfold set_delete_at_fail_soft, clear_delete_at_fail_soft.
  rewrite !update_item_soft, set_delete_at_store, clear_delete_at_store.
  repeat split.
  - destruct (post_count_positive _); simpl; eauto.
  - by intros ->.
  - intros ->. simpl. eexists. split; [done|].
    unfold set_delete_at_effect. split.
    + rewrite lookup_insert_ne; [|done]. by rewrite lookup_insert_eq.
    + by rewrite lookup_insert_eq.
  - simpl. eauto.
  - rewrite update_item_soft. by destruct (Store.update_item (tbl w0) kw) as [[]|[]].
  - intros H. by rewrite update_item_soft, H.
Qed.

End FailSoftFacts.

(** ** Album counters *)

Module CounterFacts.
Import Store Py Py.Notations AlbumDynamo.
Import Effects Fixtures.

(** One-step transactions. *)
Lemma transact_one (kw : update_kwargs) (w : world) :
  Boto.transact_write_items [Update kw] w =
    match Store.update_item (tbl w) kw with
    | inl ValidationException =>
        (inl (ClientError ValidationException), emit (Request TransactWriteItems [Key kw]) w)
    | inl _ =>
        (inl (ClientError TransactionCanceledException),
         emit (Request TransactWriteItems [Key kw]) w)
    | inr (t', _) => (inr (), set_tbl t' (emit (Request TransactWriteItems [Key kw]) w))
    end.
Proof.
  unfold Boto.transact_write_items, Boto.store_call, Store.transact_write_items.
  rewrite bool_decide_eq_true_2 by (apply NoDup_singleton). simpl.
  by destruct (Store.update_item (tbl w) kw) as [[]|[]].
Qed.

Lemma typed_pk_eq (album_id : string) : typed_pk album_id = pk album_id.
Proof. reflexivity. Qed.

(** *** [transact_remove_post] *)

Lemma transact_remove_post_run (album_id : string) (now : option DateTime) (w : world) :
  transact_remove_post album_id now w
  = (inr (Update (remove_post_kwargs album_id (now_of now w))), w).
Proof. by destruct now. Qed.

Example remove_post_text :
  let kw := remove_post_kwargs "a" "t" in
  render_update (UpdateExpression kw) = "ADD postCount :negative_one SET postsLastUpdatedAt = :now"
  ∧ render_cond <$> ConditionExpression kw
    = Some "attribute_exists(partitionKey) and postCount > :zero".
Proof. by split. Qed.

(** The store accepts the step exactly on an existing record whose postCount
    is a positive number, and then takes one off. *)
Lemma remove_post_store (album_id now_str : string) (t : table) :
  Store.update_item t (remove_post_kwargs album_id now_str) =
    match t !! pk album_id with
    | Some it =>
        match it !! "partitionKey", it !! "postCount" with
        | Some _, Some (VN n) =>
            if bool_decide (0 < n) then
              let it' := <["postsLastUpdatedAt" := VS now_str]> (<["postCount" := VN (n + -1)]> it) in
              inr (<[pk album_id := it']> t, it')
            else inl ConditionalCheckFailedException
        | _, _ => inl ConditionalCheckFailedException
        end
    | None => inl ConditionalCheckFailedException
    end.
Proof.
  unfold Store.update_item. simpl. rewrite typed_pk_eq.
  destruct (t !! pk album_id) as [it|]; simpl; [|done].
  unfold apply_update. simpl.
  destruct (it !! "partitionKey") as [p|]; simpl.
  - by destruct (it !! "postCount") as [[s|n|m]|]; simpl; lookups;
      try destruct (bool_decide (0 < n)).
  - by destruct (it !! "postCount") as [[s|n|m]|]; simpl; lookups;
      try destruct (bool_decide (0 < n)).
Qed.

(** C3. Counter non-negativity on decrement: the step built by
    [transact_remove_post] carries the condition that the record exists and
    postCount > 0. Committed against a table where the album is absent or its
    postCount is 0, the transaction is cancelled and the table is as before;
    a commit that goes through found a positive postCount and leaves one
    less, so a postCount that is not negative never becomes negative. *)
Theorem remove_post_never_negative (album_id : string) (now : option DateTime) (w : world) :
  ∃ kw,
    transact_remove_post album_id now w = (inr (Update kw), w)
    ∧ Key kw = pk album_id
    ∧ ConditionExpression kw
        = Some (And (AttributeExists "partitionKey") (Cmp (Attr ["postCount"]) CGt (Val ":zero")))
    ∧ ExpressionAttributeValues kw ≫= (.!! ":zero") = Some (VN 0)
    ∧ ∀ w0 : world,
        let r := Boto.transact_write_items [Update kw] w0 in
        ((tbl w0 !! pk album_id = None ∨ post_count (tbl w0) album_id = Some (VN 0)) →
           r = (inl (ClientError TransactionCanceledException),
                emit (Request TransactWriteItems [pk album_id]) w0))
        ∧ (r.1 ≠ inr () → tbl r.2 = tbl w0)
        ∧ (r.1 = inr () →
             ∃ n, post_count (tbl w0) album_id = Some (VN n) ∧ 0 < n
                  ∧ post_count (tbl r.2) album_id = Some (VN (n - 1)))
        ∧ (∀ n, post_count (tbl w0) album_id = Some (VN n) → (0 ≤ n)%Z →
             ∃ m, post_count (tbl r.2) album_id = Some (VN m) ∧ (0 ≤ m)%Z).
Proof.
  exists (remove_post_kwargs album_id (now_of now w)).
  split; [apply transact_remove_post_run|]. do 3 (split; [done|]).
  intros w0 r. subst r. rewrite transact_one, remove_post_store.
  unfold post_count. simpl. change (typed_pk album_id) with (pk album_id).
  destruct (tbl w0 !! pk album_id) as [it|] eqn:Hit; simpl.
  2: { repeat split; try done. }
  destruct (it !! "partitionKey") as [p|] eqn:Hp; simpl.
  2: { repeat split; try done. intros n Hn Hpos. rewrite Hit. simpl. eauto. }
  destruct (it !! "postCount") as [[s|n|m]|] eqn:Hc; simpl;
    try (repeat split; try done; intros [|]; done).
  destruct (bool_decide (0 < n)) eqn:Hn; simpl.
  - apply bool_decide_eq_true in Hn. repeat split; try done.
    + intros [?|?]; simplify_eq; lia.
    + intros _. exists n. rewrite lookup_insert_eq. simpl.
      rewrite lookup_insert_ne by done. rewrite lookup_insert_eq.
      repeat split; try done.
    + intros n' [= <-] _. exists (n - 1). rewrite lookup_insert_eq. simpl.
      rewrite lookup_insert_ne by done. rewrite lookup_insert_eq.
      split; [done|lia].
  - apply bool_decide_eq_false in Hn. repeat split; try done.
    intros n' [= <-] Hpos. rewrite Hit. simpl. rewrite Hc. eauto.
Qed.

End CounterFacts.

(** ** The rank-count condition *)

Module RankFacts.
Import Store Py Py.Notations AlbumDynamo CounterFacts.
Import Effects Fixtures.

Lemma transact_add_post_run album_id old_rank_count now (w : world) :
  transact_add_post album_id old_rank_count now w
  = (inr (Update (add_post_kwargs album_id old_rank_count (now_of now w))), w).
Proof. by destruct now, old_rank_count. Qed.

Lemma transact_increment_rank_count_run album_id old_rank_count now (w : world) :
  transact_increment_rank_count album_id old_rank_count now w
  = (inr (Update (increment_rank_count_kwargs album_id old_rank_count (now_of now w))), w).
Proof. by destruct now. Qed.

Example add_post_text :
  (render_cond <$> ConditionExpression (add_post_kwargs "a" (Some 3) "t")
   = Some "attribute_exists(partitionKey) and rankCount = :rc")
  ∧ (render_cond <$> ConditionExpression (add_post_kwargs "a" None "t")
   = Some "attribute_exists(partitionKey) and attribute_not_exists(rankCount)")
  ∧ render_update (UpdateExpression (add_post_kwargs "a" None "t"))
    = "ADD postCount :one, rankCount :one SET postsLastUpdatedAt = :now".
Proof. by repeat split. Qed.

Lemma add_post_cond album_id old_rank_count now_str (cur : option item) :
  let kw := add_post_kwargs album_id old_rank_count now_str in
  eval_cond_opt (env_of kw) cur (ConditionExpression kw) = Some true
  ↔ rank_matches cur old_rank_count.
Proof.
  unfold rank_matches.
  destruct cur as [it|]; simpl.
  2: { destruct old_rank_count; simpl; lookups; split; try done; by intros (? & ? & _). }
  destruct old_rank_count as [rc|]; simpl; lookups.
  - destruct (it !! "partitionKey") as [p|] eqn:Hp; simpl.
    + destruct (it !! "rankCount") as [v|] eqn:Hr; simpl.
      * split.
        -- intros [= H%bool_decide_eq_true]. subst v. eauto 6.
        -- intros (it' & [= <-] & _ & Hrc). rewrite Hr in Hrc. simplify_eq.
           by rewrite bool_decide_eq_true_2.
      * split; [done|]. intros (it' & [= <-] & _ & Hrc). by rewrite Hr in Hrc.
    + split.
      * by destruct (it !! "rankCount").
      * intros (it' & [= <-] & [? Hs] & _). by rewrite Hp in Hs.
  - destruct (it !! "partitionKey") as [p|] eqn:Hp; simpl.
    + destruct (it !! "rankCount") as [v|] eqn:Hr; simpl.
      * split; [done|]. intros (it' & [= <-] & _ & Hrc). by rewrite Hr in Hrc.
      * split; [|done]. intros _. eauto 6.
    + split.
      * by destruct (it !! "rankCount").
      * intros (it' & [= <-] & [? Hs] & _). by rewrite Hp in Hs.
Qed.

Lemma increment_rank_count_cond album_id rc now_str (cur : option item) :
  let kw := increment_rank_count_kwargs album_id rc now_str in
  eval_cond_opt (env_of kw) cur (ConditionExpression kw) = Some true
  ↔ rank_matches cur (Some rc).
Proof.
  unfold rank_matches.
  destruct cur as [it|]; simpl; lookups.
  2: { split; try done; by intros (? & ? & _). }
  destruct (it !! "partitionKey") as [p|] eqn:Hp; simpl.
  - destruct (it !! "rankCount") as [v|] eqn:Hr; simpl.
    + split.
      * intros [= H%bool_decide_eq_true]. subst v. eauto 6.
      * intros (it' & [= <-] & _ & Hrc). rewrite Hr in Hrc. simplify_eq.
        by rewrite bool_decide_eq_true_2.
    + split; [done|]. intros (it' & [= <-] & _ & Hrc). by rewrite Hr in Hrc.
  - split.
    + by destruct (it !! "rankCount").
    + intros (it' & [= <-] & [? Hs] & _). by rewrite Hp in Hs.
Qed.

(** Committing the step on an album that has neither counter yet. *)
Lemma add_post_first (album_id now_str : string) (w0 : world) (it : item) :
  tbl w0 !! pk album_id = Some it → is_Some (it !! "partitionKey") →
  it !! "postCount" = None → it !! "rankCount" = None →
  let it' := <["postsLastUpdatedAt" := VS now_str]> (
             <["rankCount" := VN 1]> (<["postCount" := VN 1]> it)) in
  Boto.transact_write_items [Update (add_post_kwargs album_id None now_str)] w0
  = (inr (), set_tbl (<[pk album_id := it']> (tbl w0))
               (emit (Request TransactWriteItems [pk album_id]) w0)).
Proof.
  intros Hit Hpk Hpc Hrc it'. rewrite transact_one.
  erewrite StoreFacts.update_item_ok; [done| |].
  - apply add_post_cond. exists it. by rewrite Hrc.
  - simpl. change (typed_pk album_id) with (pk album_id). rewrite Hit. simpl.
    unfold apply_update. simpl. lookups. by rewrite Hpc, Hrc.
Qed.

(** C4. Optimistic rank-count condition: the step built by
    [transact_add_post] requires the album record to exist and, when
    [old_rank_count] is given, that rankCount equals it (the value is embedded
    as [:rc]); when it is None, that rankCount is absent. Committed with no
    old rank count on an album that has neither postCount nor rankCount, it
    sets both to 1 in the one write. The step of
    [transact_increment_rank_count] carries the same equality. *)
Theorem add_post_rank_condition (album_id : string) (old_rank_count : option Z)
    (now : option DateTime) (w : world) :
  ∃ kw,
    transact_add_post album_id old_rank_count now w = (inr (Update kw), w)
    ∧ Key kw = pk album_id
    ∧ ConditionExpression kw =
        Some (And (AttributeExists "partitionKey")
                  (match old_rank_count with
                   | Some _ => Cmp (Attr ["rankCount"]) CEq (Val ":rc")
                   | None => AttributeNotExists "rankCount"
                   end))
    ∧ ExpressionAttributeValues kw ≫= (.!! ":rc") = VN <$> old_rank_count
    ∧ (∀ cur, eval_cond_opt (env_of kw) cur (ConditionExpression kw) = Some true
              ↔ rank_matches cur old_rank_count)
    ∧ (old_rank_count = None →
       ∀ (w0 : world) (it : item),
         tbl w0 !! pk album_id = Some it → is_Some (it !! "partitionKey") →
         it !! "postCount" = None → it !! "rankCount" = None →
         ∃ w1, Boto.transact_write_items [Update kw] w0 = (inr (), w1)
               ∧ post_count (tbl w1) album_id = Some (VN 1)
               ∧ rank_count (tbl w1) album_id = Some (VN 1))
    ∧ (∀ rc, ∃ kw',
         transact_increment_rank_count album_id rc now w = (inr (Update kw'), w)
         ∧ ConditionExpression kw' =
             Some (And (AttributeExists "partitionKey")
                       (Cmp (Attr ["rankCount"]) CEq (Val ":rc")))
         ∧ ExpressionAttributeValues kw' ≫= (.!! ":rc") = Some (VN rc)
         ∧ ∀ cur, eval_cond_opt (env_of kw') cur (ConditionExpression kw') = Some true
                  ↔ rank_matches cur (Some rc)).
Proof.
  exists (add_post_kwargs album_id old_rank_count (now_of now w)).
  split; [apply transact_add_post_run|]. do 2 (split; [done|]).
  split; [by destruct old_rank_count|].
  split; [intros cur; apply add_post_cond|].
  split.
  - intros -> w0 it Hit Hpk Hpc Hrc. eexists. split; [by apply add_post_first|].
    unfold post_count, rank_count. simpl. rewrite lookup_insert_eq. simpl. by lookups.
  - intros rc. exists (increment_rank_count_kwargs album_id rc (now_of now w)).
    split; [apply transact_increment_rank_count_run|]. do 2 (split; [done|]).
    intros cur. apply increment_rank_count_cond.
Qed.

End RankFacts.

(** ** Draining a paginated scan *)

Module GeneratorFacts.
Import Store Py Py.Notations Generator.

(** Resuming after the key that closes a prefix of the scan order. *)
Lemma drop_after_app (l1 l2 : list (key * item)) (k : key) :
  NoDup ((l1 ++ l2).*1) → list.last (l1.*1) = Some k → drop_after k (l1 ++ l2) = l2.
Proof.
  induction l1 as [|kv l1 IH]; [done|].
  intros Hnd Hlast. simpl in *. apply list.NoDup_cons in Hnd as [Hnotin Hnd].
  destruct l1 as [|kv' l1].
  - simpl in Hlast. injection Hlast as <-. by rewrite decide_True.
  - rewrite decide_False; [by apply IH|].
    intros Heq. apply Hnotin. rewrite Heq, fmap_app.
    apply elem_of_app. left. apply last_Some_elem_of. exact Hlast.
Qed.

Lemma last_take_is_Some {A} (l : list A) (n : nat) :
  (0 < n)%nat → (n ≤ length l)%nat → is_Some (list.last (take n l)).
Proof.
  intros Hn Hl. destruct (list.last (take n l)) eqn:E; [eauto|].
  apply last_None in E. apply (f_equal length) in E.
  rewrite length_take in E. simpl in E. lia.
Qed.

Lemma drain_S (fuel : nat) (st : gen_state) (w : world) :
  drain (S fuel) st w =
    match resume st w with
    | (inl e, w') => (inl e, w')
    | (inr (Yield x st'), w') =>
        match drain fuel st' w' with
        | (inl e, w'') => (inl e, w'')
        | (inr xs, w'') => (inr (cons x <$> xs), w'')
        end
    | (inr (Continue st'), w') => drain fuel st' w'
    | (inr StopIteration, w') => (inr (Some []), w')
    end.
Proof.
  simpl. unfold bind. destruct (resume st w) as [[e|[x st'|st'|]] w']; try done.
Qed.

Lemma resume_page (kw : scan_kwargs) (w : world) :
  resume {| pending := []; next_scan := Some kw |} w =
    match Boto.scan kw w with
    | (inl e, w') => (inl e, w')
    | (inr paginated, w') =>
        (inr (Continue {| pending := Items paginated;
                          next_scan := with_start kw <$> LastEvaluatedKey paginated |}), w')
    end.
Proof. unfold resume, bind. simpl. by destruct (Boto.scan kw w) as [[e|p] w']. Qed.

Section drain.
Variables (fe : cond) (vs : gmap string value) (w : world).
Hypothesis limit_pos : (0 < page_limit w)%nat.
Hypothesis fe_valid : is_Some (eval_cond (mk_env None (Some vs)) None fe).

Let P := passes (mk_env None (Some vs)) fe.
Let request (start : option key) : scan_kwargs :=
  {| FilterExpression := fe; ScanValues := vs; ExclusiveStartKey := start |}.

Lemma scan_run (start : option key) :
  Boto.scan (request start) w =
    (inr {| Items := filter P ((take (page_limit w) (scan_from (tbl w) start)).*2);
            LastEvaluatedKey :=
              if decide (page_limit w ≤ length (scan_from (tbl w) start))%nat
              then list.last ((take (page_limit w) (scan_from (tbl w) start)).*1)
              else None |}, w).
Proof.
  unfold Boto.scan, Store.scan. simpl.
  by destruct fe_valid as [b ->].
Qed.

(** Once the last page is in, the generator yields what is left of it. *)
Lemma drain_last_page (fuel : nat) (pending : list item) :
  (length pending + 1 ≤ fuel)%nat →
  drain fuel {| pending := pending; next_scan := None |} w = (inr (Some pending), w).
Proof.
  revert fuel. induction pending as [|x pending IH]; intros fuel Hfuel.
  - destruct fuel; [simpl in Hfuel; lia|done].
  - destruct fuel; [simpl in Hfuel; lia|].
    simpl. unfold bind. simpl. rewrite IH; [done|simpl in Hfuel; lia].
Qed.

(** The generator, standing before the rest [rest] of the scan order with
    [pending] still to yield, yields [pending] and then what passes the
    filter in [rest]. *)
Lemma drain_from (fuel : nat) :
  ∀ (pending : list item) (pre rest : list (key * item)) (start : option key),
    map_to_list (tbl w) = pre ++ rest →
    scan_from (tbl w) start = rest →
    (length pending + 2 * length rest + 2 ≤ fuel)%nat →
    drain fuel {| pending := pending; next_scan := Some (request start) |} w
    = (inr (Some (pending ++ filter P (rest.*2))), w).
Proof.
  induction fuel as [|fuel IH]; intros pending pre rest start Hsplit Hfrom Hfuel; [lia|].
  destruct pending as [|x pending].
  - rewrite drain_S, resume_page, scan_run. cbn [Items LastEvaluatedKey]. rewrite Hfrom.
    destruct (decide (page_limit w ≤ length rest)%nat) as [Hle|Hgt].
    + destruct (last_take_is_Some (rest.*1) (page_limit w) limit_pos) as [k Hk];
        [by rewrite length_fmap|].
      rewrite (fmap_take fst), Hk. simpl.
      change (with_start (request start) k) with (request (Some k)).
      rewrite (IH _ (pre ++ take (page_limit w) rest) (drop (page_limit w) rest) (Some k)).
      * by rewrite <- list.filter_app, <- fmap_app, take_drop.
      * by rewrite <- app_assoc, take_drop.
      * simpl. rewrite <- (take_drop (page_limit w) rest) in Hsplit.
        rewrite app_assoc in Hsplit. rewrite Hsplit.
        apply drop_after_app.
        -- rewrite <- Hsplit. apply NoDup_fst_map_to_list.
        -- by rewrite fmap_app, list.last_app, (fmap_take fst), Hk.
      * pose proof (list.length_filter P ((take (page_limit w) rest).*2)) as Hf.
        rewrite length_fmap, length_take in Hf.
        rewrite length_drop. lia.
    + rewrite take_ge by lia. simpl.
      rewrite drain_last_page; [done|].
      pose proof (list.length_filter P (rest.*2)) as Hf. rewrite length_fmap in Hf.
      simpl in Hfuel. lia.
  - rewrite drain_S. cbn [resume Generator.pending Generator.next_scan ret].
    rewrite (IH pending pre rest start Hsplit Hfrom); [done|simpl in Hfuel; lia].
Qed.

(** Draining the generator from its start. *)
Lemma drain_all (fuel : nat) :
  (enough_fuel (tbl w) ≤ fuel)%nat →
  drain fuel {| pending := []; next_scan := Some (request None) |} w
  = (inr (Some (filter P ((map_to_list (tbl w)).*2))), w).
Proof.
  intros Hfuel.
  rewrite (drain_from fuel [] [] (map_to_list (tbl w)) None); try done.
  unfold enough_fuel in Hfuel. rewrite length_map_to_list. simpl. lia.
Qed.
End drain.

(** A loop over a generator that yields nothing runs no body. *)
Lemma for_each_nothing (body : item → M unit) (fuel : nat) :
  ∀ (st : gen_state) (w0 w : world),
    drain fuel st w0 = (inr (Some []), w) →
    for_each fuel st body w0 = (inr (Some ()), w).
Proof.
  induction fuel as [|fuel IH]; intros st w0 w; [done|].
  simpl. unfold bind.
  destruct (resume st w0) as [[e|[x st'|st'|]] w1]; try done.
  - destruct (drain fuel st' w1) as [[e|[xs|]] w2]; done.
  - apply IH.
  - by intros [= <-].
Qed.

End GeneratorFacts.

(** ** [migrations/post_0_to_1.py]: the scan and the run *)

Module Post0To1Facts.
Import Store Py Py.Notations Generator Post0To1.
Import Effects Fixtures.

Example scan_filter_text :
  render_cond (FilterExpression (scan_kwargs_of 0))
  = "begins_with(partitionKey, :pk_prefix) and schemaVersion = :sv".
Proof. reflexivity. Qed.

Lemma filter_valid (version : Z) :
  is_Some (eval_cond (filter_env version) None (FilterExpression (scan_kwargs_of version))).
Proof. by eexists. Qed.

Lemma passes_post_at (version : Z) (it : item) :
  passes (filter_env version) (FilterExpression (scan_kwargs_of version)) it
  ↔ post_at version it.
Proof.
  unfold passes, post_at. simpl. lookups.
  destruct (it !! "partitionKey") as [[p|n|m]|] eqn:Hp; simpl;
    destruct (it !! "schemaVersion") as [v|] eqn:Hv; simpl;
    try (split; [done|]; intros [? ?]; done).
  - destruct (String.prefix "post/" p) eqn:Hpre; simpl.
    + split.
      * intros [= H%bool_decide_eq_true]. by subst v.
      * intros [_ [= ->]]. by rewrite bool_decide_eq_true_2.
    + split; [done|]. by intros [? _].
  - rewrite andb_false_r. split; [done|]. by intros [_ ?].
Qed.

(** Counting through the list of a table. *)
Lemma length_filter_snd {A B} (P : B → Prop) `{!∀ x, Decision (P x)} (l : list (A * B)) :
  length (filter P (l.*2)) = length (filter (λ kv, P kv.2) l).
Proof.
  induction l as [|kv l IH]; [done|]. rewrite fmap_cons, !filter_cons.
  destruct (decide (P kv.2)); simpl; by rewrite IH.
Qed.

Lemma size_filter_list `{Countable K} {A} (P : K * A → Prop) `{!∀ x, Decision (P x)}
    (m : gmap K A) :
  size (filter P m) = length (filter P (map_to_list m)).
Proof.
  rewrite <- length_map_to_list. apply Permutation_length, NoDup_Permutation.
  - apply NoDup_map_to_list.
  - apply list.NoDup_filter, NoDup_map_to_list.
  - intros [k x]. rewrite list_elem_of_filter, !elem_of_map_to_list, map_lookup_filter_Some.
    tauto.
Qed.

(** Every record of a table an item of which carries its key is met once. *)
Lemma NoDup_items (t : table) : table_wf t → NoDup ((map_to_list t).*2).
Proof.
  intros Hwf. apply (NoDup_fmap_1 key_of).
  assert ((key_of <$> (map_to_list t).*2) = (Some <$> (map_to_list t).*1)) as ->.
  { rewrite <- !list_fmap_compose. apply list_fmap_ext. intros i [k it] Hi. simpl.
    apply Hwf. apply elem_of_map_to_list. by eapply list_elem_of_lookup_2. }
  apply NoDup_fmap_2; [apply _|apply NoDup_fst_map_to_list].
Qed.

(** The drain of [generate_all_posts], and what is in it. *)
Lemma drain_posts (version : Z) (w : world) (fuel : nat) :
  (0 < page_limit w)%nat → (enough_fuel (tbl w) ≤ fuel)%nat →
  drain fuel (generate_all_posts version) w
  = (inr (Some (filter (post_at version) ((map_to_list (tbl w)).*2))), w).
Proof.
  intros Hlimit Hfuel.
  change (generate_all_posts version) with
    {| pending := [];
       next_scan := Some {| FilterExpression := FilterExpression (scan_kwargs_of version);
                            ScanValues := ScanValues (scan_kwargs_of version);
                            ExclusiveStartKey := None |} |}.
  rewrite (GeneratorFacts.drain_all _ _ w Hlimit (filter_valid version) fuel Hfuel).
  do 3 f_equal. apply list_filter_iff. intros it. apply passes_post_at.
Qed.

Lemma elem_of_posts (version : Z) (t : table) (it : item) :
  it ∈ filter (post_at version) ((map_to_list t).*2)
  ↔ (∃ k, t !! k = Some it) ∧ post_at version it.
Proof.
  rewrite list_elem_of_filter, list_elem_of_fmap. split.
  - intros [Hp ([k it'] & -> & Hin)]. split; [|done].
    exists k. by apply elem_of_map_to_list.
  - intros [[k Hk] Hp]. split; [done|]. exists (k, it). split; [done|].
    by apply elem_of_map_to_list.
Qed.

(** C8. Pagination completeness: whatever the page size of the store (at
    least one item a call), draining [generate_all_posts] with enough steps
    ends, leaves the process state as it was, and yields exactly the records
    of the table that pass the filter: in scan order, as many as the table
    holds, and on a well-formed table none twice. The generator gets there by
    handing each LastEvaluatedKey back as ExclusiveStartKey until a page comes
    without one. *)
Theorem pagination_complete (version : Z) (w : world) (fuel : nat) :
  (0 < page_limit w)%nat → (enough_fuel (tbl w) ≤ fuel)%nat →
  ∃ ys,
    drain fuel (generate_all_posts version) w = (inr (Some ys), w)
    ∧ ys = filter (post_at version) ((map_to_list (tbl w)).*2)
    ∧ (∀ it, it ∈ ys ↔ (∃ k, tbl w !! k = Some it) ∧ post_at version it)
    ∧ length ys = size (filter (λ kv, post_at version kv.2) (tbl w))
    ∧ (table_wf (tbl w) → NoDup ys).
Proof.
  intros Hlimit Hfuel. exists (filter (post_at version) ((map_to_list (tbl w)).*2)).
  split; [by apply drain_posts|]. split; [done|]. split; [|split].
  - intros it. apply elem_of_posts.
  - by rewrite length_filter_snd, size_filter_list.
  - intros Hwf. by apply list.NoDup_filter, NoDup_items.
Qed.

(** Nothing to migrate: the loop of [main], or of any migration body over
    this scan, runs no step. *)
Lemma nothing_to_migrate (version : Z) (body : item → M unit) (w : world) (fuel : nat) :
  (0 < page_limit w)%nat → (enough_fuel (tbl w) ≤ fuel)%nat →
  (∀ k it, tbl w !! k = Some it → ¬ post_at version it) →
  for_each fuel (generate_all_posts version) body w = (inr (Some ()), w).
Proof.
  intros Hlimit Hfuel Hnone. apply GeneratorFacts.for_each_nothing.
  rewrite (drain_posts version w fuel Hlimit Hfuel).
  destruct (filter (post_at version) ((map_to_list (tbl w)).*2)) as [|y ys] eqn:E; [done|].
  assert (Hy : y ∈ filter (post_at version) ((map_to_list (tbl w)).*2)) by (rewrite E; left).
  apply elem_of_posts in Hy as [[k Hk] Hp]. by destruct (Hnone k y Hk).
Qed.

(** C2. Migration idempotence: the scan of a run from version V yields only
    records whose schemaVersion is exactly V; and on a table where no record
    has schemaVersion V the run ends having changed nothing: the table is the
    same, no write request was sent and no line was printed or logged. This
    holds of [main] (V = 0) and of any migration body over
    [generate_all_posts V]. *)
Theorem migration_idempotent (w : world) (fuel : nat) :
  (0 < page_limit w)%nat → (enough_fuel (tbl w) ≤ fuel)%nat →
  (∀ V, ∃ ys, drain fuel (generate_all_posts V) w = (inr (Some ys), w)
              ∧ ∀ it, it ∈ ys → it !! "schemaVersion" = Some (VN V))
  ∧ ((∀ k it, tbl w !! k = Some it → it !! "schemaVersion" ≠ Some (VN 0)) →
       main fuel w = (inr (Some ()), w))
  ∧ (∀ V body,
       (∀ k it, tbl w !! k = Some it → it !! "schemaVersion" ≠ Some (VN V)) →
       for_each fuel (generate_all_posts V) body w = (inr (Some ()), w)).
Proof.
  intros Hlimit Hfuel. split; [|split].
  - intros V. eexists. split; [by apply drain_posts|].
    intros it Hit. by apply elem_of_posts in Hit as [_ [_ Hv]].
  - intros Hnone. apply nothing_to_migrate; try done.
    intros k it Hk [_ Hv]. by apply (Hnone k it).
  - intros V body Hnone. apply nothing_to_migrate; try done.
    intros k it Hk [_ Hv]. by apply (Hnone k it).
Qed.

End Post0To1Facts.

(** ** [migrations/user_6_to_7.py]: the conditional update *)

Module User6To7Facts.
Import Store Py Py.Notations User6To7.
Import Effects Fixtures.

Example update_user_text :
  let kw := dynamo_update_user_kwargs "U" (Some 2) 3 in
  render_update (UpdateExpression kw) = "SET schemaVersion = :sv, postArchivedCount = :new"
  ∧ render_cond <$> ConditionExpression kw
    = Some "attribute_exists(partitionKey) and postArchivedCount = :old".
Proof. by split. Qed.

Lemma update_user_key user_id old_value new_value :
  Key (dynamo_update_user_kwargs user_id old_value new_value) = user_pk user_id.
Proof.
  unfold dynamo_update_user_kwargs.
  by destruct (decide (new_value = default 0 old_value)), old_value.
Qed.

(** The condition holds of a stored record exactly when its count is the one
    expected. *)
Lemma update_user_cond user_id old_value new_value (it : item) :
  is_Some (it !! "partitionKey") →
  let kw := dynamo_update_user_kwargs user_id old_value new_value in
  eval_cond_opt (env_of kw) (Some it) (ConditionExpression kw)
  = Some (bool_decide (it !! "postArchivedCount" = VN <$> old_value)).
Proof.
  intros [p Hp]. unfold dynamo_update_user_kwargs.
  destruct (decide (new_value = default 0 old_value)), old_value as [v|]; simpl;
    rewrite Hp; simpl; lookups;
    destruct (it !! "postArchivedCount") as [c|]; simpl; try done;
    f_equal; apply bool_decide_ext; naive_solver.
Qed.

Lemma update_user_apply user_id old_value new_value (it : item) :
  let kw := dynamo_update_user_kwargs user_id old_value new_value in
  apply_update (env_of kw) it (UpdateExpression kw) = Some (updated_user old_value new_value it).
Proof.
  unfold dynamo_update_user_kwargs, updated_user.
  destruct (decide (new_value = default 0 old_value)), old_value as [v|]; reflexivity.
Qed.

Lemma dynamo_update_user_run user_id old_value new_value (w : world) (it : item) :
  tbl w !! user_pk user_id = Some it → is_Some (it !! "partitionKey") →
  dynamo_update_user user_id old_value new_value w =
    let sent := emit (Request UpdateItem [user_pk user_id]) w in
    if bool_decide (it !! "postArchivedCount" = VN <$> old_value)
    then (inr (), set_tbl (<[user_pk user_id := updated_user old_value new_value it]> (tbl w)) sent)
    else (inl (Exception (update_failed user_id)), sent).
Proof.
  intros Hit Hpk.
  unfold dynamo_update_user, try_except, bind, Boto.update_item, Boto.store_call.
  rewrite update_user_key.
  destruct (bool_decide (it !! "postArchivedCount" = VN <$> old_value)) eqn:Hc.
  - pose proof (StoreFacts.update_item_ok (tbl w)
                  (dynamo_update_user_kwargs user_id old_value new_value)
                  (updated_user old_value new_value it)) as Hu.
    rewrite update_user_key, Hit in Hu. rewrite Hu; [done| |].
    + by rewrite update_user_cond, Hc.
    + apply update_user_apply.
  - rewrite StoreFacts.update_item_failed; [done|].
    by rewrite update_user_key, Hit, update_user_cond, Hc.
Qed.

(** C1. Migration race detection: on a well-formed table, for a stored user
    record whose postArchivedCount is no longer what the runner expects
    ([old_value], None meaning absent), [dynamo_update_user] raises the
    Exception "Update failed for user {id}" and the table is as it was, the
    value written by the other party included; when the stored value is the
    expected one the update returns without error, schemaVersion is 7 and the
    count reads [new_value]. *)
Theorem migration_race_detection (user_id : string) (old_value : option Z) (new_value : Z)
    (w : world) (it : item) :
  table_wf (tbl w) →
  tbl w !! user_pk user_id = Some it →
  let r := dynamo_update_user user_id old_value new_value w in
  (it !! "postArchivedCount" ≠ VN <$> old_value →
     r.1 = inl (Exception ("Update failed for user " +:+ user_id))
     ∧ tbl r.2 = tbl w
     ∧ tbl r.2 !! user_pk user_id = Some it)
  ∧ (it !! "postArchivedCount" = VN <$> old_value →
     ∃ it', r.1 = inr ()
            ∧ tbl r.2 !! user_pk user_id = Some it'
            ∧ it' !! "schemaVersion" = Some (VN 7)
            ∧ default (VN 0) (it' !! "postArchivedCount") = VN new_value).
Proof.
  intros Hwf Hit r. subst r.
  rewrite (dynamo_update_user_run _ _ _ _ it Hit).
  2: { rewrite (StoreFacts.key_of_partition_key _ _ (Hwf _ _ Hit)). by eexists. }
  split.
  - intros Hne. by rewrite bool_decide_eq_false_2.
  - intros Heq. rewrite bool_decide_eq_true_2 by done. simpl.
    eexists. split; [done|]. split; [apply lookup_insert_eq|].
    unfold updated_user.
    destruct (decide (new_value = default 0 old_value)) as [->|Hne].
    + split; [apply lookup_insert_eq|].
      rewrite lookup_insert_ne by done. rewrite Heq. by destruct old_value.
    + split; [by rewrite lookup_insert_ne, lookup_insert_eq|].
      by rewrite lookup_insert_eq.
Qed.

Lemma w_user_wf : table_wf (tbl w_user).
Proof.
  intros k it. simpl. rewrite lookup_insert. case_decide; [|by rewrite lookup_empty].
  intros [= <-]. by subst k.
Qed.

(** The four calls of [test_race_condition_post_archived]. *)
Example race_condition_post_archived :
  (dynamo_update_user "U" None 2 w_user).1 = inl (Exception "Update failed for user U")
  ∧ (dynamo_update_user "U" (Some 0) 2 w_user).1 = inl (Exception "Update failed for user U")
  ∧ (dynamo_update_user "U" (Some 1) 2 w_user).1 = inl (Exception "Update failed for user U")
  ∧ (dynamo_update_user "U" (Some 2) 2 w_user).1 = inr ().
Proof. by vm_compute. Qed.

Lemma migration_race_detection_witness :
  table_wf (tbl w_user)
  ∧ tbl w_user !! user_pk "U" = Some user_with_two
  ∧ user_with_two !! "postArchivedCount" ≠ VN <$> Some 1
  ∧ (dynamo_update_user "U" (Some 1) 3 w_user).1 = inl (Exception "Update failed for user U")
  ∧ tbl (dynamo_update_user "U" (Some 1) 3 w_user).2 !! user_pk "U" = Some user_with_two.
Proof.
  assert (Hne : user_with_two !! "postArchivedCount" ≠ VN <$> Some 1) by (by vm_compute).
  split; [exact w_user_wf|]. split; [reflexivity|]. split; [exact Hne|].
  destruct (proj1 (migration_race_detection "U" (Some 1) 3 w_user user_with_two
                     w_user_wf eq_refl) Hne) as (H1 & _ & H3).
  split; [exact H1|exact H3].
Defined.

End User6To7Facts.

(** ** The claims at work on small tables *)

Module Witnesses.
Import Store Py Py.Notations Generator.
Import Effects Fixtures.

Lemma remove_post_never_negative_witness :
  ∃ kw,
    AlbumDynamo.transact_remove_post "a" None w_no_post = (inr (Update kw), w_no_post)
    ∧ Effects.post_count (tbl w_no_post) "a" = Some (VN 0)
    ∧ Boto.transact_write_items [Update kw] w_no_post
      = (inl (ClientError TransactionCanceledException),
         emit (Request TransactWriteItems [AlbumDynamo.pk "a"]) w_no_post).
Proof.
  destruct (CounterFacts.remove_post_never_negative "a" None w_no_post)
    as (kw & Hrun & _ & _ & _ & H).
  exists kw. split; [exact Hrun|]. split; [reflexivity|].
  apply (proj1 (H w_no_post)). right. reflexivity.
Defined.

Lemma add_post_rank_condition_witness :
  ∃ kw w1,
    AlbumDynamo.transact_add_post "a" None None Fixtures.w_album
      = (inr (Update kw), Fixtures.w_album)
    ∧ Boto.transact_write_items [Update kw] Fixtures.w_album = (inr (), w1)
    ∧ Effects.post_count (tbl w1) "a" = Some (VN 1)
    ∧ Effects.rank_count (tbl w1) "a" = Some (VN 1).
Proof.
  destruct (RankFacts.add_post_rank_condition "a" None None Fixtures.w_album)
    as (kw & Hrun & _ & _ & _ & _ & H & _).
  destruct (H eq_refl Fixtures.w_album Fixtures.album_a) as (w1 & H1 & H2 & H3);
    [reflexivity|by eexists|reflexivity|reflexivity|].
  exists kw, w1. split; [exact Hrun|]. split; [exact H1|]. split; [exact H2|exact H3].
Defined.

Lemma fail_soft_never_raises_witness :
  Effects.post_count_positive (tbl w_one_post !! AlbumDynamo.pk "a") = true
  ∧ AlbumDynamo.set_delete_at_fail_soft "a" {| to_iso8601_string := "2020-02-01T00:00:00+00:00" |}
      w_one_post
    = (inr (inl ConditionalCheckFailedException),
       emit (Warning "Failed to set deleteAt GSI for album `a`")
         (emit (Request UpdateItem [AlbumDynamo.pk "a"]) w_one_post)).
Proof.
  split; [reflexivity|].
  apply (proj1 (proj2 (FailSoftFacts.fail_soft_never_raises "a"
                         {| to_iso8601_string := "2020-02-01T00:00:00+00:00" |} w_one_post))).
  reflexivity.
Defined.

Lemma pagination_complete_witness :
  (0 < page_limit w_posts)%nat ∧ (enough_fuel (tbl w_posts) ≤ 12)%nat
  ∧ ∃ ys, drain 12 (Post0To1.generate_all_posts 0) w_posts = (inr (Some ys), w_posts)
          ∧ length ys = 3%nat.
Proof.
  assert (H1 : (0 < page_limit w_posts)%nat) by (vm_compute; lia).
  assert (H2 : (enough_fuel (tbl w_posts) ≤ 12)%nat) by (vm_compute; lia).
  split; [exact H1|]. split; [exact H2|].
  destruct (Post0To1Facts.pagination_complete 0 w_posts 12 H1 H2) as (ys & Hrun & _ & _ & Hn & _).
  exists ys. split; [exact Hrun|]. rewrite Hn. by vm_compute.
Defined.

Lemma migration_idempotent_witness :
  (0 < page_limit w_migrated)%nat ∧ (enough_fuel (tbl w_migrated) ≤ 10)%nat
  ∧ (∀ k it, tbl w_migrated !! k = Some it → it !! "schemaVersion" ≠ Some (VN 0))
  ∧ Post0To1.main 10 w_migrated = (inr (Some ()), w_migrated).
Proof.
  assert (H1 : (0 < page_limit w_migrated)%nat) by (vm_compute; lia).
  assert (H2 : (enough_fuel (tbl w_migrated) ≤ 10)%nat) by (vm_compute; lia).
  assert (H3 : map_Forall (λ _ (it : item), it !! "schemaVersion" ≠ Some (VN 0))
                 (tbl w_migrated)).
  { apply (bool_decide_unpack _). by vm_compute. }
  split; [exact H1|]. split; [exact H2|]. split; [exact H3|].
  apply (proj1 (proj2 (Post0To1Facts.migration_idempotent w_migrated 10 H1 H2))). exact H3.
Defined.

End Witnesses.

(** ** Key encoding *)

Module KeyFacts.
Import Store Py.

Lemma append_inj_l (p a b : string) : p +:+ a = p +:+ b → a = b.
Proof. induction p as [|c p IH]; simpl; [done|]. intros [= H]. by apply IH. Qed.

Lemma slice_from_append (p s : string) : slice_from (String.length p) (p +:+ s) = s.
Proof. induction p as [|c p IH]; simpl; [by destruct s|done]. Qed.

Lemma prefix_append (p s : string) : String.prefix p (p +:+ s) = true.
Proof.
  induction p as [|c p IH]; simpl; [by destruct s|].
  destruct (Ascii.ascii_dec c c); [done|congruence].
Qed.

(** Item types are not told apart by the key alone. *)
Example flag_item_types_collide :
  FlagDynamo.pk "a/b" "c" "u" = FlagDynamo.pk "a" "b/c" "u".
Proof. reflexivity. Qed.

(** X1. Key encoding: two albums share a key only if they are the same album;
    for one item type two flags share a key only if they are the flag of the
    same item by the same user; and the key of an album is never the key of a
    flag. *)
Theorem keys_never_collide :
  (∀ a b, AlbumDynamo.pk a = AlbumDynamo.pk b → a = b)
  ∧ (∀ item_type i u i' u',
       FlagDynamo.pk item_type i u = FlagDynamo.pk item_type i' u' → i = i' ∧ u = u')
  ∧ (∀ a item_type i u, AlbumDynamo.pk a ≠ FlagDynamo.pk item_type i u).
Proof.
  split; [|split].
  - intros a b [= H]. exact H.
  - intros item_type i u i' u' [= H1 H2]. split; [|exact H2].
    apply append_inj_l in H1. by injection H1.
  - by intros a item_type i u [=].
Qed.

Lemma keys_never_collide_witness :
  AlbumDynamo.pk "a" = AlbumDynamo.pk "a" ∧ "a" = "a".
Proof.
  split; [reflexivity|]. apply (proj1 keys_never_collide "a" "a"). reflexivity.
Defined.

End KeyFacts.

(** ** The life of an album record *)

Module AlbumLifeFacts.
Import Store Py Effects Fixtures AlbumEffects AlbumDynamo.

(** The client's update without a warning, when the store accepts it. *)
Lemma update_item_run (kw : update_kwargs) (w : world) (it' : item) :
  eval_cond_opt (env_of kw) (tbl w !! Key kw) (ConditionExpression kw) = Some true →
  apply_update (env_of kw) (default (key_item (Key kw)) (tbl w !! Key kw)) (UpdateExpression kw)
    = Some it' →
  ∀ failure_warning,
    DynamoClient.update_item kw failure_warning w =
      (inr (inr it'), set_tbl (<[Key kw := it']> (tbl w)) (emit (Request UpdateItem [Key kw]) w)).
Proof.
  intros Hc Hu fw.
  unfold DynamoClient.update_item, try_except, bind, Boto.update_item, Boto.store_call.
  by rewrite (StoreFacts.update_item_ok _ _ _ Hc Hu).
Qed.

(** X2. Insert, look up, delete: on a free key [add_album] stores an item
    that [get_album] then returns, holding the name, the owner, schema
    version 0, the creation time as index sort key, the description exactly
    when one was given, and no counter; [delete_album] hands that item back
    and the table is what it was before the album was added. *)
Theorem add_get_delete (album_id user_id name : string) (description : option string)
    (created_at : option DateTime) (w : world) :
  tbl w !! pk album_id = None →
  ∃ it w1 w2,
    add_album album_id user_id name description created_at w = (inr it, w1)
    ∧ (∀ sc, get_album album_id sc w1 = (inr (Some it), w1))
    ∧ it !! "name" = Some (VS name)
    ∧ it !! "ownedByUserId" = Some (VS user_id)
    ∧ it !! "albumId" = Some (VS album_id)
    ∧ it !! "schemaVersion" = Some (VN 0)
    ∧ it !! "gsiA1PartitionKey" = Some (VS ("album/" +:+ user_id))
    ∧ it !! "gsiA1SortKey" = it !! "createdAt"
    ∧ it !! "createdAt" = Some (VS (now_of created_at w))
    ∧ it !! "description" = VS <$> description
    ∧ it !! "postCount" = None ∧ it !! "rankCount" = None
    ∧ key_of it = Some (pk album_id)
    ∧ delete_album album_id w1 = (inr it, w2)
    ∧ tbl w2 = tbl w.
Proof.
  intros Hfree. eexists _, _, _.
  split; [by apply CreateDeleteFacts.add_album_fresh|].
  split.
  { intros sc. unfold get_album, DynamoClient.get_item, Boto.get_item, Store.get_item.
    simpl. by rewrite lookup_insert_eq. }
  do 11 (split; [by destruct description|]).
  unfold delete_album, bind. rewrite CreateDeleteFacts.delete_item_run. simpl.
  rewrite lookup_insert_eq.
  assert (truthy (album_item album_id user_id name description (now_of created_at w)) = true)
    as ->.
  { unfold truthy. apply negb_true_iff, Nat.eqb_neq.
    eapply StoreFacts.key_of_nonempty, CreateDeleteFacts.album_item_key. }
  split; [done|]. simpl. rewrite delete_insert_eq. by apply delete_id.
Qed.

Lemma add_get_delete_witness :
  tbl w_empty !! pk "a" = None
  ∧ ∃ it w1 w2,
      add_album "a" "u" "holiday" (Some "sun") None w_empty = (inr it, w1)
      ∧ it !! "description" = Some (VS "sun")
      ∧ delete_album "a" w1 = (inr it, w2)
      ∧ tbl w2 = tbl w_empty.
Proof.
  split; [reflexivity|].
  destruct (add_get_delete "a" "u" "holiday" (Some "sun") None w_empty eq_refl)
    as (it & w1 & w2 & H).
  exists it, w1, w2. tauto.
Defined.

Lemma art_hash_apply (album_id : string) (art_hash : option string) (base : item) :
  let kw := set_album_art_hash_kwargs album_id art_hash in
  Key kw = pk album_id
  ∧ eval_cond_opt (env_of kw) (Some base) (ConditionExpression kw) = Some true
  ∧ (∀ cur, eval_cond_opt (env_of kw) cur (ConditionExpression kw) = Some true)
  ∧ apply_update (env_of kw) base (UpdateExpression kw) = Some (art_hash_effect art_hash base).
Proof.
  unfold set_album_art_hash_kwargs, art_hash_effect.
  destruct (truthy_str art_hash); repeat split; reflexivity.
Qed.

(** X3. [set_album_art_hash] with a non-empty hash sets artHash to it; with
    None or the empty string it removes artHash. It never fails, whether or
    not the album had a hash, and every other attribute of the album and
    every other record is what it was. *)
Theorem set_album_art_hash_sets_or_removes (album_id : string) (art_hash : option string)
    (w : world) :
  ∃ it',
    set_album_art_hash album_id art_hash w =
      (inr (inr it'),
       set_tbl (<[pk album_id := it']> (tbl w)) (emit (Request UpdateItem [pk album_id]) w))
    ∧ it' !! "artHash" = match art_hash with
                         | Some h => if decide (h = "") then None else Some (VS h)
                         | None => None
                         end
    ∧ (∀ a, a ≠ "artHash" → it' !! a = album_base (tbl w) album_id !! a).
Proof.
  destruct (art_hash_apply album_id art_hash (album_base (tbl w) album_id))
    as (Hk & _ & Hc & Hu).
  exists (art_hash_effect art_hash (album_base (tbl w) album_id)). split.
  - unfold set_album_art_hash.
    pose proof (update_item_run (set_album_art_hash_kwargs album_id art_hash) w
                  (art_hash_effect art_hash (album_base (tbl w) album_id))) as H.
    rewrite Hk in H. apply H; [apply Hc|exact Hu].
  - unfold art_hash_effect. destruct art_hash as [h|]; simpl.
    + destruct (decide (h = "")) as [->|Hne]; simpl.
      * split; [apply lookup_delete_eq|]. intros a Ha. by rewrite lookup_delete_ne.
      * rewrite bool_decide_eq_false_2 by done. simpl.
        split; [apply lookup_insert_eq|]. intros a Ha. by rewrite lookup_insert_ne.
    + split; [apply lookup_delete_eq|]. intros a Ha. by rewrite lookup_delete_ne.
Qed.

(** X4. Partial updates compose: setting the name and then the description
    (or the description and then the name) leaves the table that setting both
    in one call leaves. *)
Theorem set_composes (album_id name description : string) (w : world) :
  name ≠ "" →
  let both := set album_id (Some name) (Some description) w in
  let name_first := set album_id None (Some description) (set album_id (Some name) None w).2 in
  let description_first :=
    set album_id (Some name) None (set album_id None (Some description) w).2 in
  tbl name_first.2 = tbl both.2
  ∧ tbl description_first.2 = tbl both.2
  ∧ name_first.1 = both.1 ∧ description_first.1 = both.1.
Proof.
  intros Hn both name_first description_first.
  subst both name_first description_first.
  assert (Hname : Some name ≠ Some "") by congruence.
  rewrite !AlbumSetFacts.set_runs; try done; try (by left); try (by right).
  cbn [fst snd tbl set_tbl emit]. rewrite !lookup_insert_eq. cbn [default].
  rewrite !insert_insert_eq. unfold set_effect.
  destruct (decide (description = "")) as [->|Hd]; unfold id.
  - by rewrite !delete_insert_ne by done.
  - by rewrite (insert_insert_ne _ "name" "description") by done.
Qed.

Lemma set_composes_witness :
  "n2" ≠ "" ∧
  tbl (set "a" None (Some "") (set "a" (Some "n2") None w_album).2).2
  = tbl (set "a" (Some "n2") (Some "") w_album).2.
Proof.
  split; [done|]. apply (proj1 (set_composes "a" "n2" "" w_album ltac:(done))).
Defined.

End AlbumLifeFacts.

(** ** Album counters, through a commit *)

Module CommitFacts.
Import Store Py Effects Fixtures AlbumEffects CounterEffects AlbumDynamo.

Lemma commit_add_post_run album_id old_rank_count now (w : world) :
  commit (transact_add_post album_id old_rank_count now) w
  = Boto.transact_write_items
      [Update (add_post_kwargs album_id old_rank_count (now_of now w))] w.
Proof. unfold commit, bind. by rewrite RankFacts.transact_add_post_run. Qed.

Lemma commit_remove_post_run album_id now (w : world) :
  commit (transact_remove_post album_id now) w
  = Boto.transact_write_items [Update (remove_post_kwargs album_id (now_of now w))] w.
Proof. unfold commit, bind. by rewrite CounterFacts.transact_remove_post_run. Qed.

Lemma commit_increment_rank_count_run album_id old_rank_count now (w : world) :
  commit (transact_increment_rank_count album_id old_rank_count now) w
  = Boto.transact_write_items
      [Update (increment_rank_count_kwargs album_id old_rank_count (now_of now w))] w.
Proof. unfold commit, bind. by rewrite RankFacts.transact_increment_rank_count_run. Qed.

Lemma add_post_apply album_id old_rank_count now_str (it : item) :
  countable (it !! "postCount") → countable (it !! "rankCount") →
  let kw := add_post_kwargs album_id old_rank_count now_str in
  apply_update (env_of kw) it (UpdateExpression kw) = Some (added now_str it).
Proof.
  intros Hp Hr. unfold apply_update, added. simpl.
  destruct old_rank_count as [rc|]; simpl; lookups;
    destruct (it !! "postCount") as [[| n |]|]; try done;
    destruct (it !! "rankCount") as [[| m |]|]; try done; simpl; lookups;
    repeat f_equal; lia.
Qed.

Lemma increment_rank_count_apply album_id rc now_str (it : item) :
  countable (it !! "rankCount") →
  let kw := increment_rank_count_kwargs album_id rc now_str in
  apply_update (env_of kw) it (UpdateExpression kw) = Some (incremented now_str it).
Proof.
  intros Hr. unfold apply_update, incremented. simpl. lookups.
  destruct (it !! "rankCount") as [[| m |]|]; try done; simpl; lookups;
    repeat f_equal; lia.
Qed.

(** A commit of [transact_add_post] whose condition holds. *)
Lemma commit_add_post_ok album_id old_rank_count now (w : world) (it : item) :
  tbl w !! pk album_id = Some it → is_Some (it !! "partitionKey") →
  it !! "rankCount" = VN <$> old_rank_count → countable (it !! "postCount") →
  commit (transact_add_post album_id old_rank_count now) w
  = (inr (), set_tbl (<[pk album_id := added (now_of now w) it]> (tbl w))
               (emit (Request TransactWriteItems [pk album_id]) w)).
Proof.
  intros Hit Hpk Hrc Hpc. rewrite commit_add_post_run, CounterFacts.transact_one.
  erewrite StoreFacts.update_item_ok; [done| |].
  - apply RankFacts.add_post_cond. by exists it.
  - simpl. change (typed_pk album_id) with (pk album_id). rewrite Hit. simpl.
    apply add_post_apply; [done|]. rewrite Hrc. by destruct old_rank_count.
Qed.

(** A commit of a step whose condition fails. *)
Lemma commit_cancelled (kw : update_kwargs) (w : world) :
  eval_cond_opt (env_of kw) (tbl w !! Key kw) (ConditionExpression kw) = Some false →
  Boto.transact_write_items [Update kw] w
  = (inl (ClientError TransactionCanceledException),
     emit (Request TransactWriteItems [Key kw]) w).
Proof.
  intros Hc. by rewrite CounterFacts.transact_one, StoreFacts.update_item_failed.
Qed.

Lemma add_post_cond_false album_id old_rank_count now_str (cur : option item) :
  ¬ rank_matches cur old_rank_count →
  let kw := add_post_kwargs album_id old_rank_count now_str in
  eval_cond_opt (env_of kw) cur (ConditionExpression kw) = Some false.
Proof.
  intros Hno kw.
  destruct (eval_cond_opt (env_of kw) cur (ConditionExpression kw)) as [[]|] eqn:E; [|done|].
  - by apply RankFacts.add_post_cond in E.
  - subst kw. by destruct old_rank_count, cur.
Qed.

Lemma increment_rank_count_cond_false album_id rc now_str (cur : option item) :
  ¬ rank_matches cur (Some rc) →
  let kw := increment_rank_count_kwargs album_id rc now_str in
  eval_cond_opt (env_of kw) cur (ConditionExpression kw) = Some false.
Proof.
  intros Hno kw.
  destruct (eval_cond_opt (env_of kw) cur (ConditionExpression kw)) as [[]|] eqn:E; [|done|].
  - by apply RankFacts.increment_rank_count_cond in E.
  - subst kw. by destruct cur.
Qed.

(** X5. Add then remove: on an album whose rankCount is the one expected and
    whose postCount is absent or a number that is not negative, committing
    [transact_add_post] and then [transact_remove_post] both succeed; the
    postCount reads what it read before, the rankCount is one more than the
    one expected, no attribute other than the two counters and
    postsLastUpdatedAt has changed, and no other record has. *)
Theorem add_then_remove (album_id : string) (old_rank_count : option Z)
    (now now' : option DateTime) (w : world) (it : item) :
  tbl w !! pk album_id = Some it → is_Some (it !! "partitionKey") →
  it !! "rankCount" = VN <$> old_rank_count →
  countable (it !! "postCount") → (0 ≤ count (it !! "postCount"))%Z →
  ∃ w1 w2 it2,
    commit (transact_add_post album_id old_rank_count now) w = (inr (), w1)
    ∧ commit (transact_remove_post album_id now') w1 = (inr (), w2)
    ∧ tbl w2 !! pk album_id = Some it2
    ∧ it2 !! "postCount" = Some (VN (count (it !! "postCount")))
    ∧ it2 !! "rankCount" = Some (VN (default 0 old_rank_count + 1))
    ∧ (∀ a, ¬ counter_attr a → it2 !! a = it !! a)
    ∧ (∀ k, k ≠ pk album_id → tbl w2 !! k = tbl w !! k).
Proof.
  intros Hit Hpk Hrc Hpc Hpos. eexists _, _, _.
  split; [by apply commit_add_post_ok|].
  rewrite commit_remove_post_run, CounterFacts.transact_one, CounterFacts.remove_post_store.
  cbn [tbl set_tbl emit]. rewrite lookup_insert_eq.
  assert (Hpk' : is_Some (added (now_of now w) it !! "partitionKey")).
  { unfold added. by rewrite !lookup_insert_ne by done. }
  destruct Hpk' as [p ->].
  assert (added (now_of now w) it !! "postCount" = Some (VN (count (it !! "postCount") + 1)))
    as ->.
  { unfold added. rewrite !lookup_insert_ne by done. by rewrite lookup_insert_eq. }
  rewrite bool_decide_eq_true_2 by lia. cbn [tbl set_tbl emit].
  split; [done|]. cbn [tbl set_tbl emit]. split; [apply lookup_insert_eq|].
  split; [|split; [|split]].
  - rewrite lookup_insert_ne by done. rewrite lookup_insert_eq. repeat f_equal. lia.
  - rewrite !lookup_insert_ne by done. unfold added.
    rewrite lookup_insert_ne by done. rewrite lookup_insert_eq, Hrc.
    by destruct old_rank_count.
  - intros a Ha. unfold counter_attr in Ha.
    rewrite !lookup_insert_ne by naive_solver. unfold added.
    by rewrite !lookup_insert_ne by naive_solver.
  - intros k Hk. by rewrite !lookup_insert_ne by done.
Qed.

Lemma add_then_remove_witness :
  ∃ w1 w2 it2,
    commit (transact_add_post "a" None None) w_album = (inr (), w1)
    ∧ commit (transact_remove_post "a" None) w1 = (inr (), w2)
    ∧ tbl w2 !! pk "a" = Some it2
    ∧ it2 !! "postCount" = Some (VN 0)
    ∧ it2 !! "rankCount" = Some (VN 1).
Proof.
  destruct (add_then_remove "a" None None None w_album album_a)
    as (w1 & w2 & it2 & H1 & H2 & H3 & H4 & H5 & _);
    [reflexivity|by eexists|reflexivity|exact I|by vm_compute|].
  exists w1, w2, it2. repeat split; assumption.
Defined.

(** X6. One winner: once a commit of [transact_add_post] with an expected
    rank count has gone through, a commit of [transact_add_post] or of
    [transact_increment_rank_count] that still expects that rank count is
    cancelled and writes nothing. *)
Theorem stale_rank_count_is_cancelled (album_id : string) (old_rank_count : option Z)
    (now now' : option DateTime) (w : world) (it : item) :
  tbl w !! pk album_id = Some it → is_Some (it !! "partitionKey") →
  it !! "rankCount" = VN <$> old_rank_count → countable (it !! "postCount") →
  ∃ w1,
    commit (transact_add_post album_id old_rank_count now) w = (inr (), w1)
    ∧ commit (transact_add_post album_id old_rank_count now') w1
      = (inl (ClientError TransactionCanceledException),
         emit (Request TransactWriteItems [pk album_id]) w1)
    ∧ ∀ rc, old_rank_count = Some rc →
        commit (transact_increment_rank_count album_id rc now') w1
        = (inl (ClientError TransactionCanceledException),
           emit (Request TransactWriteItems [pk album_id]) w1).
Proof.
  intros Hit Hpk Hrc Hpc. eexists. split; [by apply commit_add_post_ok|].
  assert (Hnew : ∀ rc', VN <$> old_rank_count = VN <$> rc' →
            ¬ rank_matches
                (tbl (set_tbl (<[pk album_id := added (now_of now w) it]> (tbl w))
                        (emit (Request TransactWriteItems [pk album_id]) w)) !! pk album_id)
                rc').
  { intros rc' Heq (it' & Hit' & _ & Hrc'). cbn [tbl set_tbl emit] in Hit'.
    rewrite lookup_insert_eq in Hit'. injection Hit' as <-. unfold added in Hrc'.
    rewrite lookup_insert_ne in Hrc' by done. rewrite lookup_insert_eq, Hrc in Hrc'.
    rewrite <- Heq in Hrc'. destruct old_rank_count; simpl in Hrc'; [|done].
    injection Hrc' as Hrc'. lia. }
  split.
  - rewrite commit_add_post_run.
    apply (commit_cancelled (add_post_kwargs album_id old_rank_count _)).
    apply add_post_cond_false. change (Key _) with (pk album_id). by apply Hnew.
  - intros rc ->. rewrite commit_increment_rank_count_run.
    apply (commit_cancelled (increment_rank_count_kwargs album_id rc _)).
    apply increment_rank_count_cond_false. change (Key _) with (pk album_id). by apply Hnew.
Qed.

Lemma stale_rank_count_is_cancelled_witness :
  ∃ w1,
    commit (transact_add_post "a" None None) w_album = (inr (), w1)
    ∧ commit (transact_add_post "a" None None) w1
      = (inl (ClientError TransactionCanceledException),
         emit (Request TransactWriteItems [pk "a"]) w1).
Proof.
  destruct (stale_rank_count_is_cancelled "a" None None None w_album album_a)
    as (w1 & H1 & H2 & _); [reflexivity|by eexists|reflexivity|exact I|].
  exists w1. split; assumption.
Defined.

(** X7. [transact_increment_rank_count]: committed on an album whose
    rankCount is the one expected it adds one to rankCount and leaves
    postCount and every attribute but postsLastUpdatedAt alone; committed on
    any other state it is cancelled and writes nothing. *)
Theorem increment_rank_count_commit (album_id : string) (rc : Z) (now : option DateTime)
    (w : world) :
  let r := commit (transact_increment_rank_count album_id rc now) w in
  let sent := emit (Request TransactWriteItems [pk album_id]) w in
  (∀ it, tbl w !! pk album_id = Some it → is_Some (it !! "partitionKey") →
         it !! "rankCount" = Some (VN rc) →
         ∃ it', r = (inr (), set_tbl (<[pk album_id := it']> (tbl w)) sent)
                ∧ it' !! "rankCount" = Some (VN (rc + 1))
                ∧ ∀ a, a ≠ "rankCount" → a ≠ "postsLastUpdatedAt" → it' !! a = it !! a)
  ∧ (¬ rank_matches (tbl w !! pk album_id) (Some rc) →
     r = (inl (ClientError TransactionCanceledException), sent)).
Proof.
  intros r sent. subst r sent. rewrite commit_increment_rank_count_run. split.
  - intros it Hit Hpk Hrc. exists (incremented (now_of now w) it). split.
    + rewrite CounterFacts.transact_one.
      erewrite StoreFacts.update_item_ok; [done| |].
      * apply RankFacts.increment_rank_count_cond. by exists it.
      * simpl. change (typed_pk album_id) with (pk album_id). rewrite Hit. simpl.
        apply increment_rank_count_apply. by rewrite Hrc.
    + unfold incremented. split.
      * rewrite lookup_insert_ne by done. by rewrite lookup_insert_eq, Hrc.
      * intros a Ha Hb. by rewrite !lookup_insert_ne by done.
  - intros Hno. apply (commit_cancelled (increment_rank_count_kwargs album_id rc _)).
    by apply increment_rank_count_cond_false.
Qed.

Lemma increment_rank_count_commit_witness :
  ¬ rank_matches (tbl w_album !! pk "a") (Some 3)
  ∧ commit (transact_increment_rank_count "a" 3 None) w_album
    = (inl (ClientError TransactionCanceledException),
       emit (Request TransactWriteItems [pk "a"]) w_album).
Proof.
  assert (H : ¬ rank_matches (tbl w_album !! pk "a") (Some 3)).
  { intros (it & Hit & _ & Hrc).
    assert (E : tbl w_album !! pk "a" = Some album_a) by apply lookup_insert_eq.
    rewrite E in Hit. injection Hit as <-. by vm_compute in Hrc. }
  split; [exact H|]. apply (proj2 (increment_rank_count_commit "a" 3 None w_album)). exact H.
Defined.

End CommitFacts.

(** ** Scheduling an album for deletion *)

Module ScheduleFacts.
Import Store Py Effects Fixtures AlbumEffects CounterEffects AlbumDynamo.

(** A projection on the key attributes keeps them and nothing else. *)
Lemma project_keys_only (q : query_kwargs) (it : item) (a : string) :
  ProjectionExpression q = Some ["partitionKey"; "sortKey"] →
  project q it !! a = if is_key_attr a then it !! a else None.
Proof.
  intros Hq. unfold project. rewrite Hq, map_lookup_filter. unfold is_key_attr.
  destruct (it !! a) as [v|]; simpl; [|by destruct (_ || _)].
  destruct (decide (a = "partitionKey")) as [->|H1]; [done|].
  destruct (decide (a = "sortKey")) as [->|H2]; [done|].
  rewrite !bool_decide_eq_false_2 by done. simpl.
  rewrite option_guard_False; [done|].
  by intros [?|[?|?%elem_of_nil]%elem_of_cons]%elem_of_cons.
Qed.

(** When an item is picked by the query of [generate_keys_to_delete]. *)
Lemma keys_to_delete_cond (cutoff_at : DateTime) (it : item) :
  key_condition_holds (generate_keys_to_delete_kwargs cutoff_at) it
  ↔ it !! "gsiK1PartitionKey" = Some (VS "album")
    ∧ ∃ s, it !! "gsiK1SortKey" = Some (VS s)
           ∧ String.ltb s (to_iso8601_string cutoff_at) = true.
Proof.
  unfold key_condition_holds. simpl. lookups.
  destruct (it !! "gsiK1PartitionKey") as [p|] eqn:Hp; simpl.
  2: { destruct (it !! "gsiK1SortKey"); simpl; split; try done; by intros [? _]. }
  destruct (it !! "gsiK1SortKey") as [[s|n|m]|] eqn:Hs; simpl.
  - destruct (decide (p = VS "album")) as [->|Hne].
    + rewrite bool_decide_eq_true_2 by done. simpl. split.
      * intros [= H]. eauto.
      * intros [_ (s' & [= <-] & H)]. by rewrite H.
    + rewrite bool_decide_eq_false_2 by done. simpl. split; [done|]. by intros [[= ?] _].
  - rewrite andb_false_r. split; [done|]. by intros [_ (? & ? & _)].
  - rewrite andb_false_r. split; [done|]. by intros [_ (? & ? & _)].
  - rewrite andb_false_r. split; [done|]. by intros [_ (? & ? & _)].
Qed.

(** X8. Schedule and unschedule: on an album that has no post (its postCount
    is not a positive number) and is not scheduled, [set_delete_at_fail_soft]
    writes the index attributes; the query of [generate_keys_to_delete] then
    picks the album exactly when its deleteAt sorts, as a string, before the
    cutoff, and projects it on its key; [clear_delete_at_fail_soft] takes the
    album out of the query for every cutoff and the table is again what it
    was before the album was scheduled. *)
Theorem schedule_and_unschedule (album_id : string) (delete_at : DateTime) (w : world)
    (it : item) :
  tbl w !! pk album_id = Some it →
  post_count_positive (Some it) = false →
  it !! "gsiK1PartitionKey" = None → it !! "gsiK1SortKey" = None →
  ∃ it1 w1 it2 w2,
    set_delete_at_fail_soft album_id delete_at w = (inr (inr it1), w1)
    ∧ tbl w1 !! pk album_id = Some it1
    ∧ (∀ cutoff_at,
         key_condition_holds (generate_keys_to_delete_kwargs cutoff_at) it1
         ↔ String.ltb (to_iso8601_string delete_at) (to_iso8601_string cutoff_at) = true)
    ∧ (∀ cutoff_at a,
         project (generate_keys_to_delete_kwargs cutoff_at) it1 !! a
         = if is_key_attr a then it !! a else None)
    ∧ clear_delete_at_fail_soft album_id w1 = (inr (inr it2), w2)
    ∧ (∀ cutoff_at, ¬ key_condition_holds (generate_keys_to_delete_kwargs cutoff_at) it2)
    ∧ it2 = it ∧ tbl w2 = tbl w.
Proof.
  intros Hit Hpos Hk1 Hk2.
  set (it1 := set_delete_at_effect delete_at it).
  assert (Hrun : set_delete_at_fail_soft album_id delete_at w =
                   (inr (inr it1), set_tbl (<[pk album_id := it1]> (tbl w))
                                     (emit (Request UpdateItem [pk album_id]) w))).
  { unfold set_delete_at_fail_soft.
    by rewrite FailSoftFacts.update_item_soft, FailSoftFacts.set_delete_at_store, Hit, Hpos. }
  assert (Hp1 : it1 !! "gsiK1PartitionKey" = Some (VS "album")).
  { subst it1. unfold set_delete_at_effect. rewrite lookup_insert_ne by done.
    apply lookup_insert_eq. }
  assert (Hs1 : it1 !! "gsiK1SortKey" = Some (VS (to_iso8601_string delete_at)))
    by apply lookup_insert_eq.
  assert (Hit1 : set_delete_at_effect delete_at it = it1) by done.
  clearbody it1.
  assert (Hback : clear_delete_at_effect it1 = it).
  { subst it1. unfold clear_delete_at_effect, set_delete_at_effect.
    rewrite delete_insert_ne by done. rewrite delete_insert_eq.
    rewrite delete_insert_eq. by rewrite !delete_id by (by rewrite ?lookup_delete_ne). }
  set (w1 := set_tbl (<[pk album_id:=it1]> (tbl w)) (emit (Request UpdateItem [pk album_id]) w))
    in *.
  assert (Hclear : clear_delete_at_fail_soft album_id w1 =
                     (inr (inr it), set_tbl (<[pk album_id := it]> (tbl w1))
                                      (emit (Request UpdateItem [pk album_id]) w1))).
  { unfold clear_delete_at_fail_soft.
    rewrite FailSoftFacts.update_item_soft, FailSoftFacts.clear_delete_at_store. cbv zeta.
    assert (tbl w1 !! pk album_id = Some it1) as -> by apply lookup_insert_eq.
    cbn [default]. unfold id. by rewrite Hback. }
  exists it1, w1, it. eexists. split; [exact Hrun|].
  split; [apply lookup_insert_eq|]. split; [|split; [|split; [exact Hclear|split]]].
  - intros cutoff_at. rewrite keys_to_delete_cond. split.
    + intros [_ (s & Hs & Hlt)]. rewrite Hs1 in Hs. by injection Hs as <-.
    + intros Hlt. split; [done|]. eauto.
  - intros cutoff_at a.
    rewrite (project_keys_only (generate_keys_to_delete_kwargs cutoff_at) it1 a eq_refl).
    subst it1. unfold set_delete_at_effect.
    destruct (is_key_attr a) eqn:Hk; [|done].
    rewrite !lookup_insert_ne; [done| |]; by intros <-.
  - intros cutoff_at. rewrite keys_to_delete_cond. intros [H' _]. congruence.
  - split; [done|]. subst w1. cbn [tbl set_tbl emit].
    rewrite insert_insert_eq. by apply insert_id.
Qed.

Lemma schedule_and_unschedule_witness :
  ∃ it1 w1 it2 w2,
    set_delete_at_fail_soft "a" {| to_iso8601_string := "2020-02-01T00:00:00+00:00" |} w_album
      = (inr (inr it1), w1)
    ∧ key_condition_holds
        (generate_keys_to_delete_kwargs {| to_iso8601_string := "2020-03-01T00:00:00+00:00" |})
        it1
    ∧ clear_delete_at_fail_soft "a" w1 = (inr (inr it2), w2)
    ∧ tbl w2 = tbl w_album.
Proof.
  destruct (schedule_and_unschedule "a"
              {| to_iso8601_string := "2020-02-01T00:00:00+00:00" |} w_album album_a)
    as (it1 & w1 & it2 & w2 & H1 & _ & H3 & _ & H5 & _ & _ & H8);
    [reflexivity|reflexivity|reflexivity|reflexivity|].
  exists it1, w1, it2, w2. split; [exact H1|]. split; [|split; [exact H5|exact H8]].
  apply H3. reflexivity.
Defined.

(** X9. An album with a post is not scheduled: right after a commit of
    [transact_add_post] has gone through, [set_delete_at_fail_soft] fails
    soft, whatever the deleteAt: it returns the failed condition, logs its
    warning and leaves the table as the commit left it. *)
Theorem album_with_post_not_scheduled (album_id : string) (old_rank_count : option Z)
    (now : option DateTime) (delete_at : DateTime) (w : world) (it : item) :
  tbl w !! pk album_id = Some it → is_Some (it !! "partitionKey") →
  it !! "rankCount" = VN <$> old_rank_count →
  countable (it !! "postCount") → (0 ≤ count (it !! "postCount"))%Z →
  ∃ w1,
    commit (transact_add_post album_id old_rank_count now) w = (inr (), w1)
    ∧ set_delete_at_fail_soft album_id delete_at w1
      = (inr (inl ConditionalCheckFailedException),
         emit (Warning (set_delete_at_warning album_id))
           (emit (Request UpdateItem [pk album_id]) w1)).
Proof.
  intros Hit Hpk Hrc Hpc Hpos. eexists. split; [by apply CommitFacts.commit_add_post_ok|].
  unfold set_delete_at_fail_soft.
  rewrite FailSoftFacts.update_item_soft, FailSoftFacts.set_delete_at_store.
  cbn [tbl set_tbl emit]. rewrite lookup_insert_eq.
  assert (post_count_positive (Some (added (now_of now w) it)) = true) as ->; [|done].
  unfold post_count_positive, added. simpl.
  rewrite !lookup_insert_ne by done. rewrite lookup_insert_eq.
  apply bool_decide_eq_true. lia.
Qed.

Lemma album_with_post_not_scheduled_witness :
  ∃ w1,
    commit (transact_add_post "a" None None) w_album = (inr (), w1)
    ∧ set_delete_at_fail_soft "a" {| to_iso8601_string := "2020-02-01T00:00:00+00:00" |} w1
      = (inr (inl ConditionalCheckFailedException),
         emit (Warning (set_delete_at_warning "a")) (emit (Request UpdateItem [pk "a"]) w1)).
Proof.
  apply (album_with_post_not_scheduled "a" None None
           {| to_iso8601_string := "2020-02-01T00:00:00+00:00" |} w_album album_a);
    [reflexivity|by eexists|reflexivity|exact I|by vm_compute].
Defined.

End ScheduleFacts.

(** ** What the queries pick *)

Module QueryFacts.
Import Store Py Effects Fixtures AlbumEffects.

(** When an item is picked by the query of [generate_by_user]. *)
Lemma by_user_cond (user_id : string) (it : item) :
  key_condition_holds (AlbumDynamo.generate_by_user_kwargs user_id) it
  ↔ it !! "gsiA1PartitionKey" = Some (VS ("album/" +:+ user_id)).
Proof.
  unfold key_condition_holds. simpl. lookups.
  change (resolve_name _ "#n0") with (Some "gsiA1PartitionKey"). simpl.
  destruct (it !! "gsiA1PartitionKey") as [v|]; simpl; [|done]. split.
  - by intros [= ->%bool_decide_eq_true].
  - intros [= ->]. by rewrite bool_decide_eq_true_2.
Qed.

(** When an item is picked by the query of [generate_by_item]. *)
Lemma by_item_cond (item_type item_id : string) (pks_only : bool) (it : item) :
  key_condition_holds (FlagDynamo.generate_by_item_kwargs item_type item_id pks_only) it
  ↔ it !! "partitionKey" = Some (VS (item_type +:+ "/" +:+ item_id))
    ∧ ∃ s, it !! "sortKey" = Some (VS s) ∧ String.prefix "flag/" s = true.
Proof.
  unfold key_condition_holds. simpl. lookups.
  destruct (it !! "partitionKey") as [p|]; simpl.
  2: { destruct (it !! "sortKey"); simpl; split; try done; by intros [? _]. }
  destruct (decide (p = VS (item_type +:+ "/" +:+ item_id))) as [->|Hne].
  - rewrite bool_decide_eq_true_2 by done. simpl.
    destruct (it !! "sortKey") as [[s|n|m]|]; simpl; split; try done;
      try (by intros [_ (? & ? & ?)]).
    + intros [= H]. eauto.
    + intros [_ (s' & [= <-] & H)]. by rewrite H.
  - rewrite bool_decide_eq_false_2 by done. simpl.
    destruct (it !! "sortKey") as [[s|n|m]|]; simpl; split; try done; by intros [[= ?] _].
Qed.

(** When an item is picked by the query of [generate_item_ids_by_user]. *)
Lemma item_ids_by_user_cond (item_type user_id : string) (it : item) :
  key_condition_holds (FlagDynamo.generate_item_ids_by_user_kwargs item_type user_id) it
  ↔ it !! "gsiK1PartitionKey" = Some (VS ("flag/" +:+ user_id))
    ∧ it !! "gsiK1SortKey" = Some (VS item_type).
Proof.
  unfold key_condition_holds. simpl. lookups.
  destruct (it !! "gsiK1PartitionKey") as [p|]; simpl.
  2: { destruct (it !! "gsiK1SortKey"); simpl; split; try done; by intros [? _]. }
  destruct (it !! "gsiK1SortKey") as [s|]; simpl.
  2: { rewrite andb_false_r. split; [done|]. by intros [_ ?]. }
  split.
  - intros [= [->%bool_decide_eq_true ->%bool_decide_eq_true]%andb_true_iff]. done.
  - intros [[= ->] [= ->]]. by rewrite !bool_decide_eq_true_2.
Qed.

Lemma slice_past_type (item_type item_id : string) :
  slice_from (String.length item_type + 1) (item_type +:+ "/" +:+ item_id) = item_id.
Proof.
  induction item_type as [|c s IH]; simpl; [by destruct item_id|exact IH].
Qed.

(** X10. Albums by owner: the item [add_album] stores is picked by the query
    of [generate_by_user] for a user exactly when that user is its owner; a
    flag is picked for no user. *)
Theorem by_user_picks_own_albums (album_id user_id name : string)
    (description : option string) (created_at : option DateTime) (w : world) :
  tbl w !! AlbumDynamo.pk album_id = None →
  ∃ it w1,
    AlbumDynamo.add_album album_id user_id name description created_at w = (inr it, w1)
    ∧ tbl w1 !! AlbumDynamo.pk album_id = Some it
    ∧ (∀ u, key_condition_holds (AlbumDynamo.generate_by_user_kwargs u) it ↔ u = user_id)
    ∧ (∀ u item_type item_id flagger now_str,
         ¬ key_condition_holds (AlbumDynamo.generate_by_user_kwargs u)
             (flag_item item_type item_id flagger now_str)).
Proof.
  intros Hfree. eexists _, _.
  split; [by apply CreateDeleteFacts.add_album_fresh|].
  split; [apply lookup_insert_eq|]. split.
  - intros u. rewrite by_user_cond.
    assert (album_item album_id user_id name description (now_of created_at w)
              !! "gsiA1PartitionKey" = Some (VS ("album/" +:+ user_id))) as ->
      by (by destruct description).
    split; [by intros [= ?]|by intros ->].
  - intros u item_type item_id flagger now_str. by rewrite by_user_cond.
Qed.

Lemma by_user_picks_own_albums_witness :
  tbl w_empty !! AlbumDynamo.pk "a" = None
  ∧ ∃ it w1,
      AlbumDynamo.add_album "a" "u" "holiday" None None w_empty = (inr it, w1)
      ∧ key_condition_holds (AlbumDynamo.generate_by_user_kwargs "u") it
      ∧ ¬ key_condition_holds (AlbumDynamo.generate_by_user_kwargs "v") it.
Proof.
  split; [reflexivity|].
  destruct (by_user_picks_own_albums "a" "u" "holiday" None None w_empty eq_refl)
    as (it & w1 & H1 & _ & H3 & _).
  exists it, w1. split; [exact H1|]. split; [by apply H3|].
  intros H. by apply H3 in H.
Defined.

(** X11. Flags of an item: the flag [FlagDynamo.add] stores is picked by the
    query of [generate_by_item], for the same item type, exactly for the item
    it flags, whoever flagged it; a record stored under sort key "-", as that
    of an album or of the flagged item itself is, is never picked; and with
    [pks_only] the query hands back the key attributes and nothing else. *)
Theorem by_item_picks_its_flags (item_type item_id user_id : string)
    (now : option DateTime) (w : world) :
  tbl w !! FlagDynamo.pk item_type item_id user_id = None →
  ∃ it w1,
    FlagDynamo.add item_type item_id user_id now w = (inr it, w1)
    ∧ tbl w1 !! FlagDynamo.pk item_type item_id user_id = Some it
    ∧ (∀ i pks_only,
         key_condition_holds (FlagDynamo.generate_by_item_kwargs item_type i pks_only) it
         ↔ i = item_id)
    ∧ (∀ t i pks_only (primary : item),
         primary !! "sortKey" = Some (VS "-") →
         ¬ key_condition_holds (FlagDynamo.generate_by_item_kwargs t i pks_only) primary)
    ∧ (∀ i a,
         project (FlagDynamo.generate_by_item_kwargs item_type i true) it !! a
         = if is_key_attr a then it !! a else None).
Proof.
  intros Hfree. eexists _, _.
  split; [by apply CreateDeleteFacts.flag_add_fresh|].
  split; [apply lookup_insert_eq|]. split; [|split].
  - intros i pks_only. rewrite by_item_cond.
    change (flag_item item_type item_id user_id (now_of now w) !! "partitionKey")
      with (Some (VS (item_type +:+ "/" +:+ item_id))).
    change (flag_item item_type item_id user_id (now_of now w) !! "sortKey")
      with (Some (VS ("flag/" +:+ user_id))).
    split.
    + intros [[= H] _]. apply KeyFacts.append_inj_l in H. by injection H.
    + intros ->. split; [done|]. exists ("flag/" +:+ user_id). split; [done|].
      apply KeyFacts.prefix_append.
  - intros t i pks_only primary Hsk. rewrite by_item_cond.
    intros [_ (s & Hs & Hpre)]. rewrite Hsk in Hs. injection Hs as <-. done.
  - intros i a.
    apply (ScheduleFacts.project_keys_only
             (FlagDynamo.generate_by_item_kwargs item_type i true)). done.
Qed.

Lemma by_item_picks_its_flags_witness :
  tbl w_album !! FlagDynamo.pk "album" "a" "u" = None
  ∧ ∃ it w1,
      FlagDynamo.add "album" "a" "u" None w_album = (inr it, w1)
      ∧ key_condition_holds (FlagDynamo.generate_by_item_kwargs "album" "a" true) it
      ∧ ¬ key_condition_holds (FlagDynamo.generate_by_item_kwargs "album" "a" true) album_a.
Proof.
  split; [reflexivity|].
  destruct (by_item_picks_its_flags "album" "a" "u" None w_album eq_refl)
    as (it & w1 & H1 & _ & H3 & H4 & _).
  exists it, w1. split; [exact H1|]. split; [by apply H3|].
  by apply H4.
Defined.

(** X12. Items flagged by a user: the flag [FlagDynamo.add] stores is picked
    by the query of [generate_item_ids_by_user] exactly for its own item type
    and the user who flagged; from what the query hands back, the partition
    key alone, [generate_item_ids_by_user] recovers the id of the flagged
    item; and an album scheduled for deletion, which lives in the same index,
    is picked for no user. *)
Theorem item_ids_by_user_round_trip (item_type item_id user_id : string)
    (now : option DateTime) (w : world) :
  tbl w !! FlagDynamo.pk item_type item_id user_id = None →
  ∃ it w1,
    FlagDynamo.add item_type item_id user_id now w = (inr it, w1)
    ∧ (∀ t u,
         key_condition_holds (FlagDynamo.generate_item_ids_by_user_kwargs t u) it
         ↔ t = item_type ∧ u = user_id)
    ∧ FlagDynamo.item_id_of item_type
        (project (FlagDynamo.generate_item_ids_by_user_kwargs item_type user_id) it)
      = Some item_id
    ∧ (∀ t u delete_at (album : item),
         ¬ key_condition_holds (FlagDynamo.generate_item_ids_by_user_kwargs t u)
             (set_delete_at_effect delete_at album)).
Proof.
  intros Hfree. eexists _, _.
  split; [by apply CreateDeleteFacts.flag_add_fresh|]. split; [|split].
  - intros t u. rewrite item_ids_by_user_cond.
    change (flag_item item_type item_id user_id (now_of now w) !! "gsiK1PartitionKey")
      with (Some (VS ("flag/" +:+ user_id))).
    change (flag_item item_type item_id user_id (now_of now w) !! "gsiK1SortKey")
      with (Some (VS item_type)).
    split; [|by intros [-> ->]]. intros [[= H1] [= H2]]. by subst.
  - unfold FlagDynamo.item_id_of, project. simpl. rewrite map_lookup_filter.
    change (flag_item item_type item_id user_id (now_of now w) !! "partitionKey")
      with (Some (VS (item_type +:+ "/" +:+ item_id))).
    simpl. f_equal. apply slice_past_type.
  - intros t u delete_at album. rewrite item_ids_by_user_cond.
    unfold set_delete_at_effect. rewrite lookup_insert_ne by done.
    rewrite lookup_insert_eq. by intros [[=] _].
Qed.

Lemma item_ids_by_user_round_trip_witness :
  tbl w_album !! FlagDynamo.pk "album" "a" "u" = None
  ∧ ∃ it w1,
      FlagDynamo.add "album" "a" "u" None w_album = (inr it, w1)
      ∧ FlagDynamo.item_id_of "album"
          (project (FlagDynamo.generate_item_ids_by_user_kwargs "album" "u") it)
        = Some "a".
Proof.
  split; [reflexivity|].
  destruct (item_ids_by_user_round_trip "album" "a" "u" None w_album eq_refl)
    as (it & w1 & H1 & _ & H3 & _).
  exists it, w1. split; [exact H1|exact H3].
Defined.

End QueryFacts.

(** ** The life of a flag *)

Module FlagLifeFacts.
Import Store Py Effects Fixtures.

(** X13. The life of a flag: on a free key [add] stores a flag that [get]
    then returns, with its creation time and schema version 0; a second [add]
    raises AlreadyFlagged and changes nothing; [delete] removes the flag, so
    that [get] returns nothing and the table is what it was before the flag;
    a second [delete] raises NotFlagged. *)
Theorem flag_life (item_type item_id user_id : string) (now now' : option DateTime)
    (w : world) :
  tbl w !! FlagDynamo.pk item_type item_id user_id = None →
  ∃ it w1 w2 w3 w4,
    FlagDynamo.add item_type item_id user_id now w = (inr it, w1)
    ∧ FlagDynamo.get item_type item_id user_id w1 = (inr (Some it), w1)
    ∧ it !! "createdAt" = Some (VS (now_of now w))
    ∧ it !! "schemaVersion" = Some (VN 0)
    ∧ FlagDynamo.add item_type item_id user_id now' w1
      = (inl (AlreadyFlagged item_type item_id user_id), w2)
    ∧ tbl w2 = tbl w1
    ∧ FlagDynamo.delete item_type item_id user_id w2 = (inr (), w3)
    ∧ FlagDynamo.get item_type item_id user_id w3 = (inr None, w3)
    ∧ tbl w3 = tbl w
    ∧ FlagDynamo.delete item_type item_id user_id w3
      = (inl (NotFlagged item_type item_id user_id), w4)
    ∧ tbl w4 = tbl w.
Proof.
  intros Hfree. eexists _, _, _, _, _.
  split; [by apply CreateDeleteFacts.flag_add_fresh|].
  split.
  { unfold FlagDynamo.get, DynamoClient.get_item, Boto.get_item, Store.get_item.
    cbn [tbl set_tbl emit]. by rewrite lookup_insert_eq. }
  do 2 (split; [done|]).
  split.
  { eapply CreateDeleteFacts.flag_add_taken; [apply lookup_insert_eq|].
    erewrite StoreFacts.key_of_partition_key by apply CreateDeleteFacts.flag_item_key.
    by eexists. }
  split; [done|].
  assert (Htruthy : truthy (flag_item item_type item_id user_id (now_of now w)) = true).
  { unfold truthy. apply negb_true_iff, Nat.eqb_neq.
    eapply StoreFacts.key_of_nonempty, CreateDeleteFacts.flag_item_key. }
  split.
  { unfold FlagDynamo.delete, bind. rewrite CreateDeleteFacts.delete_item_run.
    cbn [tbl set_tbl emit]. rewrite lookup_insert_eq. cbn [truthy_opt].
    by rewrite Htruthy. }
  cbn [tbl set_tbl emit]. rewrite delete_insert_eq, (delete_id _ _ Hfree).
  split.
  { unfold FlagDynamo.get, DynamoClient.get_item, Boto.get_item, Store.get_item.
    cbn [tbl set_tbl emit]. by rewrite Hfree. }
  split; [done|].
  unfold FlagDynamo.delete, bind. rewrite CreateDeleteFacts.delete_item_run.
  cbn [tbl set_tbl emit]. rewrite Hfree. cbn [truthy_opt negb].
  split; [done|]. cbn [tbl set_tbl emit snd]. by apply delete_id.
Qed.

Lemma flag_life_witness :
  tbl w_album !! FlagDynamo.pk "album" "a" "u" = None
  ∧ ∃ it w1 w2 w3,
      FlagDynamo.add "album" "a" "u" None w_album = (inr it, w1)
      ∧ FlagDynamo.add "album" "a" "u" None w1 = (inl (AlreadyFlagged "album" "a" "u"), w2)
      ∧ FlagDynamo.delete "album" "a" "u" w2 = (inr (), w3)
      ∧ tbl w3 = tbl w_album.
Proof.
  split; [reflexivity|].
  destruct (flag_life "album" "a" "u" None None w_album eq_refl)
    as (it & w1 & w2 & w3 & w4 & H1 & _ & _ & _ & H5 & _ & H7 & _ & H9 & _).
  exists it, w1, w2, w3. repeat split; assumption.
Defined.

End FlagLifeFacts.

(** ** [migrations/post_0_to_1.py]: the update and the run *)

Module MigrationRunFacts.
Import Store Py Effects Fixtures MigrationEffects Generator Post0To1.

Lemma update_post_cond (k : key) (cur : option item) :
  let kw := update_kwargs_of k in
  eval_cond_opt (env_of kw) cur (ConditionExpression kw)
  = Some (bool_decide (is_Some (cur ≫= (.!! "partitionKey")))
          && bool_decide (cur ≫= (.!! "schemaVersion") = Some (VN 0))).
Proof.
  simpl. lookups. destruct cur as [it|]; simpl; [|done].
  destruct (it !! "schemaVersion") as [v|]; simpl.
  - do 2 f_equal. apply bool_decide_ext. split; [by intros ->|by intros [= ->]].
  - by rewrite andb_false_r.
Qed.

Lemma update_post_apply (k : key) (it : item) :
  apply_update (env_of (update_kwargs_of k)) it (UpdateExpression (update_kwargs_of k))
  = migrated_post it.
Proof.
  unfold apply_update, migrated_post. simpl.
  destruct (it !! "postedBy") as [[s|n|m]|]; simpl; try done.
  destruct (m !! "userId") as [u|]; simpl; [|done]. by lookups.
Qed.





(** Resuming the generator reads the table and changes nothing. *)
Lemma resume_world (st : gen_state) (w : world) : (resume st w).2 = w.
Proof.
  unfold resume. destruct (pending st) as [|x rest]; [|done].
  destruct (next_scan st) as [kw|]; [|done].
  unfold bind, Boto.scan. by destruct (Store.scan (page_limit w) (tbl w) kw).
Qed.

(** What every round of a loop keeps of the table, the loop keeps. *)
Lemma for_each_invariant (I : table → Prop) (body : item → M unit) :
  (∀ x w, I (tbl w) → I (tbl (body x w).2)) →
  ∀ fuel st w, I (tbl w) → I (tbl (for_each fuel st body w).2).
Proof.
  intros Hbody. induction fuel as [|fuel IH]; intros st w Hw; [done|].
  simpl. unfold bind. pose proof (resume_world st w) as Hr.
  destruct (resume st w) as [[e|[x st'|st'|]] w']; simpl in Hr; subst w'; try done.
  - pose proof (Hbody x w Hw) as Hx.
    destruct (body x w) as [[e|[]] w']; simpl in Hx; [done|]. by apply IH.
  - by apply IH.
Qed.

(** One update migrates one record, or changes nothing. *)
Lemma update_post_step (x : item) (w : world) :
  tbl (update_post_from_0_to_1 x w).2 = tbl w
  ∨ ∃ k cur it',
      tbl w !! k = Some cur ∧ migration_step cur it'
      ∧ tbl (update_post_from_0_to_1 x w).2 = <[k := it']> (tbl w).
Proof.
  unfold update_post_from_0_to_1.
  destruct (x !! "partitionKey") as [[p|n|m]|]; [|by left; destruct (x !! "sortKey")..|by left].
  destruct (x !! "sortKey") as [[s|n|m]|]; [|by left..].
  unfold bind, print, Boto.update_item, Boto.store_call, Store.update_item.
  cbn [tbl emit fst snd]. rewrite update_post_cond, update_post_apply.
  change (Key (update_kwargs_of (p, s))) with (p, s).
  destruct (tbl w !! (p, s)) as [cur|] eqn:Hcur; simpl; [|by left].
  destruct (bool_decide (is_Some (cur !! "partitionKey"))); simpl; [|by left].
  destruct (bool_decide (cur !! "schemaVersion" = Some (VN 0))) eqn:Hv; simpl; [|by left].
  apply bool_decide_eq_true in Hv.
  destruct (migrated_post cur) as [it'|] eqn:Hm; simpl; [|by left].
  right. by exists (p, s), cur, it'.
Qed.

Lemma migrated_post_version (it it' : item) :
  migrated_post it = Some it' → it' !! "schemaVersion" = Some (VN 1).
Proof.
  unfold migrated_post. destruct (get_path _ _); [|done]. intros [= <-].
  rewrite lookup_delete_ne by done. apply lookup_insert_eq.
Qed.

Lemma migration_of_refl (t : table) : migration_of t t.
Proof. intros k. by left. Qed.

Lemma migration_of_step (t0 t : table) (k : key) (cur it' : item) :
  migration_of t0 t → t !! k = Some cur → migration_step cur it' →
  migration_of t0 (<[k := it']> t).
Proof.
  intros Hinv Hcur Hstep k'. destruct (decide (k' = k)) as [->|Hne].
  - rewrite lookup_insert_eq. right. destruct (Hinv k) as [Heq|(it0 & it1 & H0 & H1 & [_ Hm])].
    + exists cur, it'. by rewrite <- Heq.
    + rewrite Hcur in H1. injection H1 as <-.
      apply migrated_post_version in Hm. destruct Hstep as [Hv _]. congruence.
  - rewrite lookup_insert_ne by done. apply Hinv.
Qed.

(** X15. The run only migrates: however [main] ends (normally, on an error
    of the store, or cut short), the table it leaves comes from the table it
    found by replacing some records at schema version 0 by their migrated
    form. No record is created or deleted, and a record that was not at
    version 0 is left exactly as it was. *)
Theorem main_only_migrates (fuel : nat) (w : world) :
  let t' := tbl (main fuel w).2 in
  migration_of (tbl w) t'
  ∧ (∀ k, is_Some (t' !! k) ↔ is_Some (tbl w !! k))
  ∧ (∀ k it, tbl w !! k = Some it → it !! "schemaVersion" ≠ Some (VN 0) → t' !! k = Some it).
Proof.
  intros t'. subst t'.
  assert (Hinv : migration_of (tbl w) (tbl (main fuel w).2)).
  { unfold main.
    apply (for_each_invariant (migration_of (tbl w))); [|apply migration_of_refl].
    intros x w1 Hw1. destruct (update_post_step x w1) as [->|(k & cur & it' & Hk & Hs & ->)];
      [done|by eapply migration_of_step]. }
  split; [exact Hinv|]. split.
  - intros k. destruct (Hinv k) as [->|(it & it' & -> & -> & _)]; [done|].
    split; eauto.
  - intros k it Hit Hv. destruct (Hinv k) as [->|(it0 & it' & H0 & _ & [Hv0 _])]; [done|].
    congruence.
Qed.

Lemma main_only_migrates_witness :
  tbl w_posts !! ("post/p2", "-") = Some (post_v1 "p2" "u")
  ∧ post_v1 "p2" "u" !! "schemaVersion" ≠ Some (VN 0)
  ∧ tbl (main 12 w_posts).2 !! ("post/p2", "-") = Some (post_v1 "p2" "u").
Proof.
  assert (H1 : tbl w_posts !! ("post/p2", "-") = Some (post_v1 "p2" "u")) by reflexivity.
  assert (H2 : post_v1 "p2" "u" !! "schemaVersion" ≠ Some (VN 0)) by (by vm_compute).
  split; [exact H1|]. split; [exact H2|].
  apply (proj2 (proj2 (main_only_migrates 12 w_posts)) _ _ H1 H2).
Defined.

End MigrationRunFacts.

(** ** Every stored item keeps carrying its key *)

Module WfFacts.
Import Store Py Effects Fixtures AlbumEffects Invariants.

Lemma keeps_wf_ret {A} (a : A) : keeps_wf (ret a).
Proof. by intros w. Qed.

Lemma keeps_wf_raise {A} (e : exn) : keeps_wf (@raise A e).
Proof. by intros w. Qed.

Lemma keeps_wf_bind {A B} (m : M A) (f : A → M B) :
  keeps_wf m → (∀ a, keeps_wf (f a)) → keeps_wf (bind m f).
Proof.
  intros Hm Hf w Hw. unfold bind. specialize (Hm w Hw).
  destruct (m w) as [[e|a] w']; [done|]. by apply Hf.
Qed.

Lemma keeps_wf_try_except {A} (m : M A) (h : exn → option (M A)) :
  keeps_wf m → (∀ e k, h e = Some k → keeps_wf k) → keeps_wf (try_except m h).
Proof.
  intros Hm Hh w Hw. unfold try_except. specialize (Hm w Hw).
  destruct (m w) as [[e|a] w']; [|done].
  destruct (h e) as [k|] eqn:E; [|done]. by eapply Hh.
Qed.

Lemma keeps_wf_store_call {A} (op : write_op) (ks : list key)
    (f : table → store_exn + (table * A)) :
  (∀ t t' a, table_wf t → f t = inr (t', a) → table_wf t') →
  keeps_wf (Boto.store_call op ks f).
Proof.
  intros Hf w Hw. unfold Boto.store_call.
  destruct (f (tbl w)) as [e|[t' a]] eqn:E; [done|]. by eapply Hf.
Qed.

Lemma keeps_wf_put_item it c : keeps_wf (Boto.put_item it c).
Proof.
  apply keeps_wf_store_call. intros t t' [] Hwf.
  destruct (put_item t it c) as [e|t1] eqn:E; [done|]. intros [= <-].
  by eapply StoreFacts.put_item_wf.
Qed.

Lemma keeps_wf_update_item kw : keeps_wf (Boto.update_item kw).
Proof.
  apply keeps_wf_store_call. intros t t' a Hwf H. by eapply StoreFacts.update_item_wf.
Qed.

Lemma keeps_wf_delete_item k : keeps_wf (Boto.delete_item k).
Proof.
  apply keeps_wf_store_call. intros t t' a Hwf [= <- _].
  by apply (StoreFacts.delete_item_wf t k).
Qed.

Lemma transact_steps_wf (steps : list transact_item) :
  ∀ t t', table_wf t → transact_steps t steps = inr t' → table_wf t'.
Proof.
  induction steps as [|[kw] steps IH]; intros t t' Hwf; simpl; [by intros [= <-]|].
  destruct (Store.update_item t kw) as [[]|[t1 it1]] eqn:E; try done.
  apply IH. by eapply StoreFacts.update_item_wf.
Qed.

Lemma keeps_wf_transact steps : keeps_wf (Boto.transact_write_items steps).
Proof.
  apply keeps_wf_store_call. intros t t' [] Hwf. unfold transact_write_items.
  destruct (bool_decide _); [|done].
  destruct (transact_steps t steps) as [e|t1] eqn:E; [done|]. intros [= <-].
  by eapply transact_steps_wf.
Qed.

Lemma keeps_wf_client_update kw fw : keeps_wf (DynamoClient.update_item kw fw).
Proof.
  apply keeps_wf_try_except.
  - apply keeps_wf_bind; [apply keeps_wf_update_item|intros; apply keeps_wf_ret].
  - intros e k Hk. destruct e as [[]| | | | | | |]; destruct fw; try discriminate Hk.
    injection Hk as <-. intros w Hw. exact Hw.
Qed.

Lemma keeps_wf_add_item it : keeps_wf (DynamoClient.add_item it).
Proof. apply keeps_wf_bind; [apply keeps_wf_put_item|intros; apply keeps_wf_ret]. Qed.

Lemma keeps_wf_or_now {A} now (f : DateTime → M A) :
  (∀ d, keeps_wf (f d)) → keeps_wf (bind (AlbumDynamo.or_now now) f).
Proof. intros Hf. apply keeps_wf_bind; [|done]. destruct now; intros w Hw; exact Hw. Qed.

Lemma keeps_wf_assert c msg : keeps_wf (assert c msg).
Proof. destruct c; intros w Hw; exact Hw. Qed.

Lemma keeps_wf_commit step : keeps_wf step → keeps_wf (commit step).
Proof. intros H. apply keeps_wf_bind; [done|intros; apply keeps_wf_transact]. Qed.

(** X16. The invariant of the table: every operation of the album and flag
    access classes, a commit of each of the three album transactions, the
    update of a post and the whole run of the migration leave every stored
    item carrying the key it is stored under, whatever their arguments and
    however they end. *)
Theorem operations_keep_wf :
  (∀ album_id user_id name description created_at,
     keeps_wf (AlbumDynamo.add_album album_id user_id name description created_at))
  ∧ (∀ album_id name description, keeps_wf (AlbumDynamo.set album_id name description))
  ∧ (∀ album_id art_hash, keeps_wf (AlbumDynamo.set_album_art_hash album_id art_hash))
  ∧ (∀ album_id delete_at, keeps_wf (AlbumDynamo.set_delete_at_fail_soft album_id delete_at))
  ∧ (∀ album_id, keeps_wf (AlbumDynamo.clear_delete_at_fail_soft album_id))
  ∧ (∀ album_id, keeps_wf (AlbumDynamo.delete_album album_id))
  ∧ (∀ album_id rc now, keeps_wf (commit (AlbumDynamo.transact_add_post album_id rc now)))
  ∧ (∀ album_id now, keeps_wf (commit (AlbumDynamo.transact_remove_post album_id now)))
  ∧ (∀ album_id rc now,
       keeps_wf (commit (AlbumDynamo.transact_increment_rank_count album_id rc now)))
  ∧ (∀ item_type item_id user_id now, keeps_wf (FlagDynamo.add item_type item_id user_id now))
  ∧ (∀ item_type item_id user_id, keeps_wf (FlagDynamo.delete item_type item_id user_id))
  ∧ (∀ like, keeps_wf (Post0To1.update_post_from_0_to_1 like))
  ∧ (∀ fuel, keeps_wf (Post0To1.main fuel)).
Proof.
  assert (Hpost : ∀ like, keeps_wf (Post0To1.update_post_from_0_to_1 like)).
  { intros like. unfold Post0To1.update_post_from_0_to_1.
    destruct (like !! "partitionKey") as [[p|n|m]|];
      destruct (like !! "sortKey") as [[s|n'|m']|]; try apply keeps_wf_raise;
      try (apply keeps_wf_bind; [by intros w|intros _];
           apply keeps_wf_store_call; by intros t t' a).
    apply keeps_wf_bind; [by intros w|intros _].
    apply keeps_wf_bind; [apply keeps_wf_update_item|by intros _ w]. }
  repeat split.
  - intros. apply keeps_wf_or_now. intros d.
    apply keeps_wf_try_except; [apply keeps_wf_add_item|].
    intros e k Hk. destruct e as [[]| | | | | | |]; try discriminate Hk.
    injection Hk as <-. intros w Hw. exact Hw.
  - intros. apply keeps_wf_bind; [apply keeps_wf_assert|intros _].
    apply keeps_wf_bind; [apply keeps_wf_assert|intros _]. apply keeps_wf_client_update.
  - intros. apply keeps_wf_client_update.
  - intros. apply keeps_wf_client_update.
  - intros. apply keeps_wf_client_update.
  - intros. apply keeps_wf_bind; [apply keeps_wf_delete_item|].
    intros [it|]; [destruct (truthy it)|]; by intros w.
  - intros. apply keeps_wf_commit, keeps_wf_or_now. intros d.
    destruct rc; apply keeps_wf_ret.
  - intros. apply keeps_wf_commit, keeps_wf_or_now. intros d. apply keeps_wf_ret.
  - intros. apply keeps_wf_commit, keeps_wf_or_now. intros d. apply keeps_wf_ret.
  - intros. apply keeps_wf_or_now. intros d.
    apply keeps_wf_try_except; [apply keeps_wf_add_item|].
    intros e k Hk. destruct e as [[]| | | | | | |]; try discriminate Hk.
    injection Hk as <-. intros w Hw. exact Hw.
  - intros. apply keeps_wf_bind; [apply keeps_wf_delete_item|].
    intros o. destruct (negb (truthy_opt o)); by intros w.
  - exact Hpost.
  - intros fuel w Hw. unfold Post0To1.main.
    apply (MigrationRunFacts.for_each_invariant table_wf); [|done].
    intros x w1 Hw1. by apply Hpost.
Qed.

Lemma operations_keep_wf_witness :
  table_wf (tbl w_album) ∧ table_wf (tbl (AlbumDynamo.set "a" (Some "n2") (Some "") w_album).2).
Proof.
  split; [exact CreateDeleteFacts.w_album_wf|].
  apply (proj1 (proj2 operations_keep_wf) "a" (Some "n2") (Some "") w_album).
  exact CreateDeleteFacts.w_album_wf.
Defined.

End WfFacts.

(** ** [app/models/user/manager.py]: what a changed record sets off *)

Module UserManagerFacts.
Import Store Py Effects Fixtures UserManager UserEffects.

Lemma truthy_empty : truthy (∅ : item) = false.
Proof. reflexivity. Qed.

Lemma truthy_false_empty (it : item) : truthy it = false → it = ∅.
Proof.
  unfold truthy. intros H. apply negb_false_iff, Nat.eqb_eq in H.
  by apply map_size_empty_iff.
Qed.

Lemma get_S_empty (name : string) : get_S ∅ name = None.
Proof. unfold get_S. by rewrite lookup_empty. Qed.

(** X17. The search index gets at most one call per changed record: none
    when there is neither an old nor a new item; [delete_user] of the old
    item when the record is gone; [add_user] of the new item when the record
    is new or is being reindexed by hand (its lastManuallyReindexedAt is
    non-empty and differs from the old one), in which case the old item is
    not looked at; and otherwise [update_user], also when nothing differs. *)
Theorem elasticsearch_one_call (old_item new_item : item) :
  postprocess_elasticsearch old_item new_item =
    if truthy new_item then
      if truthy old_item && negb (reindexed old_item new_item)
      then [update_user old_item new_item]
      else [add_user new_item]
    else if truthy old_item then [delete_user old_item]
    else [].
Proof.
  unfold postprocess_elasticsearch, reindexed.
  destruct (truthy new_item) eqn:Hn.
  - destruct (truthy_str (get_S new_item "lastManuallyReindexedAt")
              && bool_decide (get_S new_item "lastManuallyReindexedAt"
                              ≠ get_S old_item "lastManuallyReindexedAt")); simpl.
    + by rewrite andb_false_r.
    + rewrite andb_true_r. by destruct (truthy old_item).
  - apply truthy_false_empty in Hn. subst new_item. rewrite get_S_empty. simpl.
    by destruct (truthy old_item).
Qed.

Section status.
Variables (ACTIVE DISABLED DELETING : string).

Lemma endpoint_change_same (user_id : string) (old_item new_item : item) (d p : string) :
  get_S old_item d = get_S new_item d →
  endpoint_change user_id old_item new_item d p = [].
Proof. intros H. unfold endpoint_change. by rewrite bool_decide_eq_true_2. Qed.

(** X18. The endpoint service hears only of a deletion or of a change of
    email, phone or status: when the record is not being deleted and its
    email, its phone number and its status (ACTIVE when not stated) are what
    they were, no call is made, whatever else has changed in the record; in
    particular an unchanged record sets off nothing. When the record is gone
    the one call is [delete_user_endpoints]. *)
Theorem pinpoint_quiet_unless_changed (user_id : string) (old_item new_item : item) :
  (truthy old_item = true → truthy new_item = false →
     postprocess_pinpoint ACTIVE DISABLED DELETING user_id old_item new_item
     = [delete_user_endpoints user_id])
  ∧ (truthy old_item && negb (truthy new_item) = false →
     get_S old_item "email" = get_S new_item "email" →
     get_S old_item "phoneNumber" = get_S new_item "phoneNumber" →
     status_of ACTIVE old_item = status_of ACTIVE new_item →
     postprocess_pinpoint ACTIVE DISABLED DELETING user_id old_item new_item = [])
  ∧ postprocess_pinpoint ACTIVE DISABLED DELETING user_id new_item new_item = [].
Proof.
  assert (Hquiet : truthy old_item && negb (truthy new_item) = false →
     get_S old_item "email" = get_S new_item "email" →
     get_S old_item "phoneNumber" = get_S new_item "phoneNumber" →
     status_of ACTIVE old_item = status_of ACTIVE new_item →
     postprocess_pinpoint ACTIVE DISABLED DELETING user_id old_item new_item = []).
  { intros Hdel He Hp Hs. unfold postprocess_pinpoint. rewrite Hdel.
    rewrite !endpoint_change_same by done. unfold status_of in Hs. simpl.
    rewrite (bool_decide_eq_false_2 (_ ≠ _)) by (by intros H; apply H).
    by rewrite andb_false_r. }
  split; [|split; [exact Hquiet|]].
  - intros Ho Hn. unfold postprocess_pinpoint. by rewrite Ho, Hn.
  - unfold postprocess_pinpoint. destruct (truthy new_item); simpl.
    + rewrite !endpoint_change_same by done.
      by rewrite (bool_decide_eq_false_2 (_ ≠ _)) by (by intros H; apply H).
    + rewrite !endpoint_change_same by done. done.
Qed.

(** X19. A new record (no old item): the endpoint service is told of the
    email and of the phone number the record comes with, an empty one being
    deleted rather than set, and of nothing else; the status of a new record
    sets off no call. *)
Theorem pinpoint_on_creation (user_id : string) (new_item : item) :
  postprocess_pinpoint ACTIVE DISABLED DELETING user_id ∅ new_item =
    match get_S new_item "email" with
    | None => []
    | Some e => if decide (e = "") then [delete_user_endpoint user_id "EMAIL"]
                else [update_user_endpoint user_id "EMAIL" e]
    end
    ++ match get_S new_item "phoneNumber" with
       | None => []
       | Some p => if decide (p = "") then [delete_user_endpoint user_id "SMS"]
                   else [update_user_endpoint user_id "SMS" p]
       end.
Proof.
  unfold postprocess_pinpoint, endpoint_change. rewrite truthy_empty, !get_S_empty. simpl.
  rewrite app_nil_r.
  destruct (get_S new_item "email") as [e|]; destruct (get_S new_item "phoneNumber") as [p|];
    simpl; try destruct (decide (e = "")) as [->|He]; try destruct (decide (p = "")) as [->|Hp];
    simpl; rewrite ?bool_decide_eq_false_2 by done; simpl; try done.
Qed.

(** X20. A change of status alone, the three statuses being distinct: the
    endpoints are enabled when the record becomes ACTIVE, disabled when it
    becomes DISABLED, deleted when it becomes DELETING, and left alone when
    it takes any other status. *)
Theorem pinpoint_status_change (user_id : string) (old_item new_item : item) :
  ACTIVE ≠ DISABLED → ACTIVE ≠ DELETING → DISABLED ≠ DELETING →
  truthy old_item = true → truthy new_item = true →
  get_S old_item "email" = get_S new_item "email" →
  get_S old_item "phoneNumber" = get_S new_item "phoneNumber" →
  status_of ACTIVE old_item ≠ status_of ACTIVE new_item →
  postprocess_pinpoint ACTIVE DISABLED DELETING user_id old_item new_item =
    let status := status_of ACTIVE new_item in
    if decide (status = ACTIVE) then [enable_user_endpoints user_id]
    else if decide (status = DISABLED) then [disable_user_endpoints user_id]
    else if decide (status = DELETING) then [delete_user_endpoints user_id]
    else [].
Proof.
  intros H1 H2 H3 Ho Hn He Hp Hs. unfold postprocess_pinpoint, status_of in *.
  rewrite Ho, Hn. simpl. rewrite !endpoint_change_same by done. simpl.
  rewrite (bool_decide_eq_true_2 (_ ≠ _)) by done.
  destruct (decide (default ACTIVE (get_S new_item "userStatus") = ACTIVE)) as [E|E].
  - rewrite E. rewrite bool_decide_eq_true_2 by done.
    by rewrite !bool_decide_eq_false_2 by done.
  - rewrite (bool_decide_eq_false_2 _ E). simpl.
    destruct (decide (default ACTIVE (get_S new_item "userStatus") = DISABLED)) as [E'|E'].
    + rewrite E'. rewrite bool_decide_eq_true_2 by done.
      by rewrite bool_decide_eq_false_2 by done.
    + rewrite (bool_decide_eq_false_2 _ E'). simpl.
      destruct (decide (default ACTIVE (get_S new_item "userStatus") = DELETING)) as [E''|E''].
      * by rewrite bool_decide_eq_true_2.
      * by rewrite bool_decide_eq_false_2.
Qed.

(** X21. The user id is read back from the partition key: for the record
    stored under "user/{id}", [postprocess_record] addresses the endpoint
    service with that id; when the record is gone it tells the search index
    to delete the old item and the endpoint service to delete the endpoints
    of that user, and nothing more. *)
Theorem postprocess_record_decodes_user (user_id sk : string) (old_item new_item : item) :
  postprocess_record ACTIVE DISABLED DELETING ("user/" +:+ user_id) sk old_item new_item
  = (postprocess_elasticsearch old_item new_item,
     postprocess_pinpoint ACTIVE DISABLED DELETING user_id old_item new_item)
  ∧ (truthy old_item = true →
     postprocess_record ACTIVE DISABLED DELETING (User6To7.user_pk user_id).1 sk old_item ∅
     = ([delete_user old_item], [delete_user_endpoints user_id])).
Proof.
  split; [done|]. intros Ho. unfold postprocess_record. simpl. f_equal.
  - unfold postprocess_elasticsearch. rewrite get_S_empty. simpl. by rewrite Ho.
  - unfold postprocess_pinpoint. by rewrite Ho.
Qed.

End status.

Lemma user_record_truthy email status : truthy (user_record email status) = true.
Proof.
  unfold truthy. apply negb_true_iff, Nat.eqb_neq. intros H.
  apply map_size_empty_iff in H. apply (f_equal (.!! "email")) in H.
  unfold user_record in H. by rewrite lookup_insert_eq, lookup_empty in H.
Qed.

Lemma pinpoint_quiet_unless_changed_witness :
  postprocess_pinpoint "ACTIVE" "DISABLED" "DELETING" "U"
    (user_record "a@b.c" "ACTIVE") ∅
  = [delete_user_endpoints "U"].
Proof.
  apply (proj1 (pinpoint_quiet_unless_changed "ACTIVE" "DISABLED" "DELETING" "U"
                  (user_record "a@b.c" "ACTIVE") ∅));
    [apply user_record_truthy|reflexivity].
Defined.

Lemma pinpoint_status_change_witness :
  postprocess_pinpoint "ACTIVE" "DISABLED" "DELETING" "U"
    (user_record "a@b.c" "ACTIVE") (user_record "a@b.c" "DISABLED")
  = [disable_user_endpoints "U"].
Proof.
  apply (pinpoint_status_change "ACTIVE" "DISABLED" "DELETING" "U"
           (user_record "a@b.c" "ACTIVE") (user_record "a@b.c" "DISABLED"));
    try done; apply user_record_truthy.
Defined.

Lemma postprocess_record_decodes_user_witness :
  truthy (user_record "a@b.c" "ACTIVE") = true
  ∧ postprocess_record "ACTIVE" "DISABLED" "DELETING" "user/U" "profile"
      (user_record "a@b.c" "ACTIVE") ∅
    = ([delete_user (user_record "a@b.c" "ACTIVE")], [delete_user_endpoints "U"]).
Proof.
  split; [apply user_record_truthy|].
  apply (proj2 (postprocess_record_decodes_user "ACTIVE" "DISABLED" "DELETING" "U" "profile"
                  (user_record "a@b.c" "ACTIVE") ∅)).
  apply user_record_truthy.
Defined.

End UserManagerFacts.

(** ** Requests the store will not refuse for their form *)

Module RequestFacts.
Import Store Py Effects Fixtures Placeholders.

Ltac fits :=
  repeat split;
  try (by apply (bool_decide_unpack _); vm_compute);
  try (by eexists);
  try done;
  try (apply insert_non_empty);
  try (rewrite !dom_insert_L, dom_empty_L; by apply (bool_decide_unpack _); vm_compute).

(** X22. The requests fit their placeholders: every update that [set],
    [set_album_art_hash], the two deleteAt operations and the three album
    transactions build, and the update of the post migration, names each
    keyword once with its clauses under it, declares every placeholder its
    expressions mention and none that they do not, and never sends an empty
    dict of placeholders. For [set] this holds under its precondition. *)
Theorem requests_fit :
  (∀ album_id name description,
     name ≠ Some "" → (name ≠ None ∨ description ≠ None) →
     request_fits (AlbumDynamo.set_kwargs album_id name description))
  ∧ (∀ album_id art_hash, request_fits (AlbumDynamo.set_album_art_hash_kwargs album_id art_hash))
  ∧ (∀ album_id delete_at, request_fits (AlbumDynamo.set_delete_at_kwargs album_id delete_at))
  ∧ (∀ album_id, request_fits (AlbumDynamo.clear_delete_at_kwargs album_id))
  ∧ (∀ album_id rc now_str, request_fits (add_post_kwargs album_id rc now_str))
  ∧ (∀ album_id now_str, request_fits (remove_post_kwargs album_id now_str))
  ∧ (∀ album_id rc now_str, request_fits (increment_rank_count_kwargs album_id rc now_str))
  ∧ (∀ k, request_fits (Post0To1.update_kwargs_of k)).
Proof.
  split; [|split; [|split; [|split; [|split; [|split; [|split]]]]]].
  - intros album_id name description Hn Hsome. unfold AlbumDynamo.set_kwargs.
    destruct name as [n|], description as [d|]; try (by destruct Hsome);
      try destruct (decide (d = "")) as [->|Hd]; unfold request_fits; simpl; fits.
  - intros album_id art_hash. unfold AlbumDynamo.set_album_art_hash_kwargs.
    destruct (truthy_str art_hash); unfold request_fits; simpl; fits.
  - intros. unfold request_fits; simpl; fits.
  - intros. unfold request_fits; simpl; fits.
  - intros album_id [rc|] now_str; unfold request_fits; simpl; fits.
  - intros. unfold request_fits; simpl; fits.
  - intros. unfold request_fits; simpl; fits.
  - intros. unfold request_fits; simpl; fits.
Qed.

Lemma requests_fit_witness :
  (Some "n" : option string) ≠ Some ""
  ∧ request_fits (AlbumDynamo.set_kwargs "a" (Some "n") (Some "")).
Proof.
  split; [done|]. apply (proj1 requests_fit "a" (Some "n") (Some "")); [done|by left].
Defined.

End RequestFacts.
